(** * e-log: a shallow embedding of the pod log streaming engine

  The repository holds three generations of one Flask/CLI program that
  follows the log of a Kubernetes pod and serves it as a server-sent
  event feed:

  - [web-log.py]: process-wide state, no allow-list, no cache;
  - [appv2.py]:   process-wide state, allow-list, Redis cache,
                  reconnecting worker with timestamp parsing;
  - [app.py]:     per-session state bundles, allow-list, Redis cache,
                  worker that ends on the first upstream error.

  Each file is embedded in a module of its own ([WebLog], [AppV2],
  [App]).  Shared state is passed explicitly as a [world]; every
  primitive operation on a queue, an event, the Redis store or a thread
  is also appended to a chronological [trace], so that statements about
  the order of operations can be made.

  Concurrency is modelled by interleaving.  A worker thread moves one
  loop iteration at a time, each time its upstream iterator delivers
  something; a [schedule] is a sequence of such steps of any threads.  A
  controller operation ([select_pod], [stop_log_streaming],
  [start_log_streaming]) runs without interruption except where it
  waits, in [join(timeout=2.0)]: there it takes the schedule of what the
  worker threads do in the meantime, which may or may not make the joined
  worker return.  The feed generator is a function of what its polls
  observe.  Terminal output ([print]) is left out. *)

From Stdlib Require Import String Ascii QArith Lqa.
From stdpp Require Import gmap strings list.

Open Scope string_scope.
Open Scope list_scope.

(** ** Python helpers *)

Module Py.

(** [s.split(' ', 1)]: at most one split, at the first space.  The result
    has one element when [s] holds no space and two otherwise; with an
    explicit separator Python keeps empty fields. *)
Fixpoint split1 (s : string) : list string :=
  match s with
  | EmptyString => [EmptyString]
  | String c rest =>
      if Ascii.eqb c " " then [EmptyString; rest]
      else match split1 rest with
           | [a; b] => [String c a; b]
           | _ => [s]
           end
  end.

(** Whether [s] holds a space. *)
Fixpoint has_space (s : string) : bool :=
  match s with
  | EmptyString => false
  | String c rest => if Ascii.eqb c " " then true else has_space rest
  end.

(** The sentinel the workers put on the queue to end the feed. *)
Definition END : string := "__END__".

(** [f"Error streaming logs: {e}"] *)
Definition error_msg (e : string) : string := "Error streaming logs: " +:+ e.

(** [f"logs:{namespace}:{pod_name}"] *)
Definition cache_key (namespace pod_name : string) : string :=
  "logs:" +:+ namespace +:+ ":" +:+ pod_name.

(** [{'name': ..., 'namespace': ...}] *)
Record pod_ref := PodRef { name : string; namespace : string }.

(** What the upstream iterator [w.stream(...)] does next, as seen by the
    [for] loop of a worker: it yields a line, raises [ApiException], or
    is exhausted. *)
Inductive upstream :=
| UpLine (line : string)
| UpApiException (e : string)
| UpEnd.

(** The specification speaks of lines with and without a "parseable
    timestamp".  The code has no such test; the notion is fixed here, read
    generously, only to state that sentence: a token is timestamp-like
    when it is not empty and written with the characters of an RFC 3339
    timestamp such as [2024-01-01T00:00:00Z], the prefix the cluster adds
    under [timestamps=True]. *)
Definition timestamp_char (c : ascii) : bool :=
  let n := nat_of_ascii c in
  ((48 <=? n) && (n <=? 57))%nat
  || Ascii.eqb c "-" || Ascii.eqb c ":" || Ascii.eqb c "." || Ascii.eqb c "+"
  || Ascii.eqb c "T" || Ascii.eqb c "Z".

Definition timestamp_like (token : string) : bool :=
  negb (String.eqb token EmptyString) && forallb timestamp_char (list_ascii_of_string token).

End Py.

(** ** The Redis list store ([redis_client], [decode_responses=True]) *)

Module Redis.

Abbreviation store := (gmap string (list string)).

(** The list under [key]; a missing key is the empty list. *)
Definition entry (key : string) (r : store) : list string :=
  default [] (r !! key).

Definition lrange_all (key : string) (r : store) : list string :=
  entry key r.

Definition llen (key : string) (r : store) : nat :=
  length (entry key r).

Definition rpush (key item : string) (r : store) : store :=
  <[key := entry key r ++ [item]]> r.

(** [lpop] removes the head; Redis drops a key whose list becomes empty. *)
Definition lpop (key : string) (r : store) : store :=
  match entry key r with
  | [] => r
  | _ :: [] => delete key r
  | _ :: rest => <[key := rest]> r
  end.

Definition del (key : string) (r : store) : store := delete key r.

End Redis.

(** ** The event feed adapter ([generate] inside [logs()])

  The three files carry the same generator; they differ in the heartbeat
  threshold, in whether a log line resets [has_yielded_waiting], and in
  whether a log frame carries a delivery timestamp.  The generator is
  embedded once, over a [variant] record, and instantiated per file. *)

Module Feed.

Inductive event :=
| Connected                                   (* {"message": "Connected to log stream"} *)
| Log (line : string) (timestamp : option Q)  (* {"log": line[, "timestamp": t]} *)
| NoPodSelected                               (* {"message": "No pod selected. ..."} *)
| WaitingForLogs                              (* {"message": "Waiting for logs..."} *)
| Heartbeat                                   (* ": heartbeat" comment frame *)
| StreamEnded.                                (* {"message": "Log stream ended. ..."} *)

(** A yielded frame, tagged with the clock reading the generator holds in
    [last_yield_time] once the frame is out. *)
Record frame := Frame { ev : event; at_time : Q }.

(** What one pass through the [while] loop reads from the shared state and
    the clock ([time.time()], taken as an exact rational). *)
Inductive observation :=
| StopIsSet                                       (* [stop_event.is_set()] at the loop test *)
| Got (line : string) (t_yield t_after : Q)        (* [log_queue.get] returned [line] *)
| Empty (current_time : Q) (pod_is_None : bool).   (* [queue.Empty] after the timeout *)

Record variant := Variant {
  heartbeat_after : Q;
  resets_waiting_on_log : bool;
  log_has_timestamp : bool
}.

Record locals := Locals {
  last_yield_time : Q;
  has_yielded_waiting : bool
}.

(** One pass through the loop body.  [None] for the locals means the loop
    is left (loop test failed, or [break] on the sentinel). *)
Definition iteration (v : variant) (l : locals) (o : observation)
  : list frame * option locals :=
  match o with
  | StopIsSet => ([], None)
  | Got line t_yield t_after =>
      if String.eqb line Py.END then ([], None)
      else
        ([Frame (Log line (if log_has_timestamp v then Some t_yield else None)) t_after],
         Some (Locals t_after
                 (if resets_waiting_on_log v then false else has_yielded_waiting l)))
  | Empty current_time pod_is_None =>
      if pod_is_None then
        ([Frame NoPodSelected current_time],
         Some (Locals current_time (has_yielded_waiting l)))
      else if negb (has_yielded_waiting l) then
        ([Frame WaitingForLogs current_time], Some (Locals current_time true))
      else if Qlt_le_dec (heartbeat_after v) (current_time - last_yield_time l) then
        ([Frame Heartbeat current_time],
         Some (Locals current_time (has_yielded_waiting l)))
      else ([], Some l)
  end.

(** The [while] loop over the observations made so far.  When they run
    out the generator is suspended and has not yielded the final frame. *)
Fixpoint loop (v : variant) (l : locals) (obs : list observation) : list frame :=
  match obs with
  | [] => []
  | o :: obs' =>
      match iteration v l o with
      | (out, Some l') => out ++ loop v l' obs'
      | (out, None) => out ++ [Frame StreamEnded (last_yield_time l)]
      end
  end.

(** [generate()]: the acknowledgement frame, then the loop; [t0] is the
    first clock reading. *)
Definition frames (v : variant) (t0 : Q) (obs : list observation) : list frame :=
  Frame Connected t0 :: loop v (Locals t0 false) obs.

Definition generate (v : variant) (t0 : Q) (obs : list observation) : list event :=
  map ev (frames v t0 obs).

(** An idle connection: a pod is selected, the stop signal is clear and
    every poll times out; [polls] are the clock readings. *)
Definition idle (polls : list Q) : list observation :=
  map (λ t, Empty t false) polls.

Definition is_heartbeat (f : frame) : Prop := ev f = Heartbeat.

(** Every frame of [fs] comes more than [d] after the frame before it,
    the first one more than [d] after [prev]. *)
Fixpoint spaced (d prev : Q) (fs : list frame) : Prop :=
  match fs with
  | [] => True
  | f :: fs' => (d < at_time f - prev)%Q ∧ spaced d (at_time f) fs'
  end.

End Feed.

(** ** app.py: the session-scoped variant *)

Module App.

Abbreviation pod_ref := Py.pod_ref.
Abbreviation PodRef := Py.PodRef.

(** One entry of [_sessions].  The [input_queue] of the bundle is used by
    the terminal's input reader only and is left out. *)
Record session_state := State {
  current_pod : option pod_ref;
  log_queue : list string;
  stop_event : bool;
  stream_thread : option nat
}.

(** A [threading.Thread(target=streamer)]: the closure keeps the session
    bundle (by its id), the pod and the namespace; [is_alive] holds from
    [start()] until [streamer] returns. *)
Record thread := Thread {
  th_session : string;
  th_pod_name : string;
  th_namespace : string;
  is_alive : bool
}.

Inductive effect :=
| QPut (sid item : string)              (* state['log_queue'].put(item) *)
| QGet (sid item : string)              (* an item taken off state['log_queue'] *)
| EvSet (sid : string)                  (* state['stop_event'].set() *)
| EvClear (sid : string)                (* state['stop_event'].clear() *)
| PodSet (sid : string) (p : option pod_ref)   (* state['current_pod'] = p *)
| Lrange (key : string)                 (* redis_client.lrange(key, 0, -1) *)
| Delete (key : string)                 (* redis_client.delete(key) *)
| Rpush (key item : string)             (* redis_client.rpush(key, item) *)
| Lpop (key : string)                   (* redis_client.lpop(key) *)
| ThreadStart (tid : nat)               (* Thread(...).start() *)
| ThreadJoin (tid : nat)                (* thread.join(timeout=2.0) *)
| Follow (namespace name : string)      (* read_namespaced_pod_log(follow=True, tail_lines=100) *)
| ListNamespace                         (* v1.list_namespace() *)
| ListNamespacedPod (namespace : string)   (* v1.list_namespaced_pod(namespace) *)
| ListPodForAllNamespaces.              (* v1.list_pod_for_all_namespaces() *)

Record world := World {
  sessions : gmap string session_state;   (* _sessions *)
  redis_client : Redis.store;
  threads : list thread;                  (* every thread ever started, by id *)
  trace : list effect
}.

(** The bundle [_get_or_create_state] allocates. *)
Definition new_state : session_state := State None [] false None.

Definition empty_world : world := World ∅ ∅ [] [].

Definition state_of (sid : string) (w : world) : session_state :=
  default new_state (sessions w !! sid).

Definition log (e : effect) (w : world) : world :=
  World (sessions w) (redis_client w) (threads w) (trace w ++ [e]).

Definition update (sid : string) (f : session_state → session_state) (w : world) : world :=
  World (<[sid := f (state_of sid w)]> (sessions w)) (redis_client w) (threads w) (trace w).

Definition with_redis (f : Redis.store → Redis.store) (w : world) : world :=
  World (sessions w) (f (redis_client w)) (threads w) (trace w).

(** [sid] stands for the session cookie [_get_session_id] reads or creates. *)
Definition _get_or_create_state (sid : string) (w : world) : world :=
  match sessions w !! sid with
  | Some _ => w
  | None => World (<[sid := new_state]> (sessions w)) (redis_client w) (threads w) (trace w)
  end.

(** *** Primitive operations on a session bundle *)

Definition put (sid item : string) (w : world) : world :=
  log (QPut sid item)
    (update sid (λ s, State (current_pod s) (log_queue s ++ [item]) (stop_event s) (stream_thread s)) w).

Definition get_nowait (sid : string) (w : world) : world :=
  match log_queue (state_of sid w) with
  | [] => w
  | item :: rest =>
      log (QGet sid item)
        (update sid (λ s, State (current_pod s) rest (stop_event s) (stream_thread s)) w)
  end.

Definition set_stop_event (sid : string) (b : bool) (w : world) : world :=
  log (if b then EvSet sid else EvClear sid)
    (update sid (λ s, State (current_pod s) (log_queue s) b (stream_thread s)) w).

Definition set_current_pod (sid : string) (p : option pod_ref) (w : world) : world :=
  log (PodSet sid p)
    (update sid (λ s, State p (log_queue s) (stop_event s) (stream_thread s)) w).

Definition set_stream_thread (sid : string) (t : option nat) (w : world) : world :=
  update sid (λ s, State (current_pod s) (log_queue s) (stop_event s) t) w.

(** [while not q.empty(): q.get_nowait()], on a queue of [n] items. *)
Fixpoint drain (n : nat) (sid : string) (w : world) : world :=
  match n with
  | O => w
  | S n' =>
      match log_queue (state_of sid w) with
      | [] => w
      | _ :: _ => drain n' sid (get_nowait sid w)
      end
  end.

Definition clear_queue (sid : string) (w : world) : world :=
  drain (length (log_queue (state_of sid w))) sid w.

(** *** Redis, with the trace *)

Definition lrange (key : string) (w : world) : list string * world :=
  (Redis.lrange_all key (redis_client w), log (Lrange key) w).

Definition rpush (key item : string) (w : world) : world :=
  log (Rpush key item) (with_redis (Redis.rpush key item) w).

Definition lpop (key : string) (w : world) : world :=
  log (Lpop key) (with_redis (Redis.lpop key) w).

Definition delete_key (key : string) (w : world) : world :=
  log (Delete key) (with_redis (Redis.del key) w).

Definition llen (key : string) (w : world) : nat :=
  Redis.llen key (redis_client w).

(** *** Threads *)

Definition alive (tid : nat) (w : world) : bool :=
  match threads w !! tid with
  | Some th => is_alive th
  | None => false
  end.

(** [threading.Thread(target=streamer)]: a thread object that has not been
    started; [is_alive()] is false for it. *)
Definition new_thread (sid pod_name namespace : string) (w : world) : nat * world :=
  (length (threads w),
   World (sessions w) (redis_client w)
     (threads w ++ [Thread sid pod_name namespace false]) (trace w)).

(** [thread.start()]: the thread runs and opens its follow request; the
    request is recorded with the start. *)
Definition start (tid : nat) (w : world) : world :=
  match threads w !! tid with
  | Some th =>
      log (Follow (th_namespace th) (th_pod_name th))
        (log (ThreadStart tid)
           (World (sessions w) (redis_client w)
              (<[tid := Thread (th_session th) (th_pod_name th) (th_namespace th) true]>
                 (threads w))
              (trace w)))
  | None => w
  end.

(** [streamer] returns. *)
Definition exit_thread (tid : nat) (w : world) : world :=
  match threads w !! tid with
  | Some th =>
      World (sessions w) (redis_client w)
        (<[tid := Thread (th_session th) (th_pod_name th) (th_namespace th) false]> (threads w))
        (trace w)
  | None => w
  end.

(** The [finally] block of [streamer] (lines 334-337), then the return. *)
Definition streamer_finally (tid : nat) (sid : string) (w : world) : world :=
  let w := put sid Py.END w in
  let w := set_current_pod sid None w in
  exit_thread tid w.

(** One step of the worker [tid]: what [streamer] (lines 317-337) does
    when its upstream iterator delivers [u].  [print] is left out. *)
Definition streamer_step (tid : nat) (u : Py.upstream) (w : world) : world :=
  match threads w !! tid with
  | None => w
  | Some th =>
      if negb (is_alive th) then w
      else
        let sid := th_session th in
        let cache_key := Py.cache_key (th_namespace th) (th_pod_name th) in
        match u with
        | Py.UpLine line =>
            if stop_event (state_of sid w) then streamer_finally tid sid w
            else
              let w := put sid line w in
              let w := rpush cache_key line w in
              if (1000 <? llen cache_key w)%nat then lpop cache_key w else w
        | Py.UpApiException e =>
            let w := put sid (Py.error_msg e) w in
            let w := rpush cache_key (Py.error_msg e) w in
            streamer_finally tid sid w
        | Py.UpEnd => streamer_finally tid sid w
        end
  end.

(** What the other threads do while the caller waits: a sequence of worker
    steps, each the delivery of an upstream event to a thread. *)
Definition schedule := list (nat * Py.upstream).

Definition run (sched : schedule) (w : world) : world :=
  foldl (λ w step, streamer_step step.1 step.2 w) w sched.

(** *** The stream controller *)

(** [stop_log_streaming(state)], lines 342-347.  [during_join] is what the
    worker threads do during [join(timeout=2.0)]; the join returns when the
    worker has returned or the timeout has expired, and the handle is
    cleared in both cases. *)
Definition stop_log_streaming (sid : string) (during_join : schedule) (w : world) : world :=
  let w := set_stop_event sid true w in
  match stream_thread (state_of sid w) with
  | None => w
  | Some tid =>
      if alive tid w then
        let w := log (ThreadJoin tid) w in
        let w := run during_join w in
        set_stream_thread sid None w
      else w
  end.

Inductive response :=
| Text (status : nat) (body : string)
| JsonNames (status : nat) (names : list string)
| JsonPods (status : nat) (pods : list pod_ref)
| JsonError (status : nat) (error : string).

(** A pod as [list_pods] reports it: [{"index", "name", "namespace"}]. *)
Record pod_entry := PodEntry { index : nat; pod : pod_ref }.

(** The cluster API as the listing calls see it; [inl e] is an
    [ApiException]. *)
Record cluster := Cluster {
  list_namespace : string + list string;
  list_namespaced_pod : string → string + list pod_ref;
  list_pod_for_all_namespaces : string + list pod_ref
}.

(** [enumerate(pods, start=i)] *)
Fixpoint enumerate (i : nat) (pods : list pod_ref) : list pod_entry :=
  match pods with
  | [] => []
  | p :: pods' => PodEntry i p :: enumerate (S i) pods'
  end.

Section Config.

Variable ALLOWED_NAMESPACES : list string.

(** [start_log_streaming(pod_name, namespace, state)], lines 299-340. *)
Definition start_log_streaming (pod_name namespace sid : string) (w : world) : world :=
  if decide (namespace ∉ ALLOWED_NAMESPACES) then w
  else
    let w := set_current_pod sid (Some (PodRef pod_name namespace)) w in
    let w := set_stop_event sid false w in
    let w := clear_queue sid w in
    let cache_key := Py.cache_key namespace pod_name in
    let w := delete_key cache_key w in
    let '(tid, w) := new_thread sid pod_name namespace w in
    let w := set_stream_thread sid (Some tid) w in
    start tid w.

(** [select_pod(namespace, pod_name)], lines 131-148. *)
Definition select_pod (namespace pod_name sid : string) (during_join : schedule) (w : world)
  : response * world :=
  let w := _get_or_create_state sid w in
  if decide (namespace ∉ ALLOWED_NAMESPACES) then (Text 403 "Namespace not allowed", w)
  else
    let w := stop_log_streaming sid during_join w in
    let cache_key := Py.cache_key namespace pod_name in
    let '(cached_logs, w) := lrange cache_key w in
    let w := foldl (λ w log, put sid log w) w cached_logs in
    let w := start_log_streaming pod_name namespace sid w in
    (Text 200 "OK", w).

(** [list_pods(namespace)], lines 268-285; [None] and the empty string are
    both false for [if namespace:]. *)
Definition list_pods (namespace : option string) (k : cluster) (w : world)
  : list pod_entry * world :=
  match namespace with
  | Some ns =>
      if String.eqb ns EmptyString then
        match list_pod_for_all_namespaces k with
        | inr pods =>
            (enumerate 1 (filter (λ p, Py.namespace p ∈ ALLOWED_NAMESPACES) pods),
             log ListPodForAllNamespaces w)
        | inl _ => ([], log ListPodForAllNamespaces w)
        end
      else if decide (ns ∉ ALLOWED_NAMESPACES) then ([], w)
      else
        match list_namespaced_pod k ns with
        | inr pods => (enumerate 1 pods, log (ListNamespacedPod ns) w)
        | inl _ => ([], log (ListNamespacedPod ns) w)
        end
  | None =>
      match list_pod_for_all_namespaces k with
      | inr pods =>
          (enumerate 1 (filter (λ p, Py.namespace p ∈ ALLOWED_NAMESPACES) pods),
           log ListPodForAllNamespaces w)
      | inl _ => ([], log ListPodForAllNamespaces w)
      end
  end.

(** [get_namespaces()], lines 111-120. *)
Definition get_namespaces (k : cluster) (w : world) : response * world :=
  match list_namespace k with
  | inr names =>
      (JsonNames 200 (filter (λ ns, ns ∈ ALLOWED_NAMESPACES) names), log ListNamespace w)
  | inl e => (JsonError 500 e, log ListNamespace w)
  end.

(** [get_pods_in_namespace(namespace)], lines 122-129. *)
Definition get_pods_in_namespace (namespace : string) (k : cluster) (w : world)
  : response * world :=
  if decide (namespace ∉ ALLOWED_NAMESPACES) then (JsonError 403 "Namespace not allowed", w)
  else
    let '(pods, w) := list_pods (Some namespace) k w in
    (JsonPods 200 (map pod pods), w).

End Config.

(** *** The feed of a session *)

Definition generate_variant : Feed.variant := Feed.Variant 10 true true.

(** What one pass of [generate] reads from the bundle of [sid]; a line that
    is there is taken off the queue. *)
Definition poll (sid : string) (t_yield t_after : Q) (w : world) : Feed.observation * world :=
  if stop_event (state_of sid w) then (Feed.StopIsSet, w)
  else
    match log_queue (state_of sid w) with
    | line :: _ => (Feed.Got line t_yield t_after, get_nowait sid w)
    | [] =>
        (Feed.Empty t_yield (match current_pod (state_of sid w) with None => true | Some _ => false end), w)
    end.

(** The workers of a session whose [streamer] has not returned. *)
Definition active_workers (sid : string) (w : world) : list thread :=
  filter (λ th, th_session th = sid ∧ is_alive th = true) (threads w).

(** A thread record once [streamer] has returned. *)
Definition dead (th : thread) : thread :=
  Thread (th_session th) (th_pod_name th) (th_namespace th) false.

(** No worker of the session is running. *)
Definition quiet (sid : string) (w : world) : Prop :=
  ∀ tid th, threads w !! tid = Some th → th_session th = sid → is_alive th = false.

(** The only worker of the session that may be running is [tid]. *)
Definition only (sid : string) (tid : nat) (w : world) : Prop :=
  ∀ tid' th, threads w !! tid' = Some th → th_session th = sid → is_alive th = true →
             tid' = tid.

End App.

(** ** appv2.py: process-wide state, reconnecting worker *)

Module AppV2.

Abbreviation pod_ref := Py.pod_ref.
Abbreviation PodRef := Py.PodRef.

(** The module-level variables (lines 22-26); [input_queue] is left out. *)
Record globals := Globals {
  current_pod : option pod_ref;
  log_queue : list string;
  stop_event : bool;
  stream_thread : option nat
}.

(** Where a worker thread stands: created but not started, at the test of
    its [while] loop (just started, or after the retry delay), inside the
    [for] loop waiting for the upstream iterator, or returned. *)
Inductive pc := Created | AtWhile | InFor | Returned.

(** The frame of one [streamer] call.  [streamer] assigns [current_pod]
    without declaring it [global] (the declaration at line 264 belongs to
    the enclosing [start_log_streaming] and does not reach the nested
    function), so the name is a local of [streamer]:
    [local_current_pod] is [None] while it is unbound and [Some v] once
    assigned. *)
Record thread := Thread {
  th_pod_name : string;
  th_namespace : string;
  th_pc : pc;
  last_timestamp : option string;
  local_current_pod : option (option pod_ref)
}.

Inductive effect :=
| QPut (item : string)
| QGet (item : string)
| EvSet
| EvClear
| GlobalPodSet (p : option pod_ref)            (* module-level current_pod = p *)
| LocalPodSet (tid : nat) (p : option pod_ref)  (* current_pod = p inside streamer *)
| Delete (key : string)
| Rpush (key item : string)
| Lpop (key : string)
| ThreadStart (tid : nat)
| ThreadJoin (tid : nat)
| Follow (namespace name : string) (tail_lines : nat) (since_time : option string)
| Sleep.                                        (* time.sleep(1) *)

Record world := World {
  vars : globals;
  redis_client : Redis.store;
  threads : list thread;
  trace : list effect
}.

Definition empty_world : world := World (Globals None [] false None) ∅ [] [].

Definition log (e : effect) (w : world) : world :=
  World (vars w) (redis_client w) (threads w) (trace w ++ [e]).

Definition update (f : globals → globals) (w : world) : world :=
  World (f (vars w)) (redis_client w) (threads w) (trace w).

Definition with_redis (f : Redis.store → Redis.store) (w : world) : world :=
  World (vars w) (f (redis_client w)) (threads w) (trace w).

Definition put (item : string) (w : world) : world :=
  log (QPut item)
    (update (λ g, Globals (current_pod g) (log_queue g ++ [item]) (stop_event g) (stream_thread g)) w).

Definition get_nowait (w : world) : world :=
  match log_queue (vars w) with
  | [] => w
  | item :: rest =>
      log (QGet item)
        (update (λ g, Globals (current_pod g) rest (stop_event g) (stream_thread g)) w)
  end.

Definition set_stop_event (b : bool) (w : world) : world :=
  log (if b then EvSet else EvClear)
    (update (λ g, Globals (current_pod g) (log_queue g) b (stream_thread g)) w).

Definition set_current_pod (p : option pod_ref) (w : world) : world :=
  log (GlobalPodSet p)
    (update (λ g, Globals p (log_queue g) (stop_event g) (stream_thread g)) w).

Definition set_stream_thread (t : option nat) (w : world) : world :=
  update (λ g, Globals (current_pod g) (log_queue g) (stop_event g) t) w.

Fixpoint drain (n : nat) (w : world) : world :=
  match n with
  | O => w
  | S n' =>
      match log_queue (vars w) with
      | [] => w
      | _ :: _ => drain n' (get_nowait w)
      end
  end.

Definition clear_queue (w : world) : world :=
  drain (length (log_queue (vars w))) w.

Definition rpush (key item : string) (w : world) : world :=
  log (Rpush key item) (with_redis (Redis.rpush key item) w).

Definition lpop (key : string) (w : world) : world :=
  log (Lpop key) (with_redis (Redis.lpop key) w).

Definition delete_key (key : string) (w : world) : world :=
  log (Delete key) (with_redis (Redis.del key) w).

Definition llen (key : string) (w : world) : nat :=
  Redis.llen key (redis_client w).

Definition alive (tid : nat) (w : world) : bool :=
  match threads w !! tid with
  | Some th => match th_pc th with Created | Returned => false | _ => true end
  | None => false
  end.

Definition set_thread (tid : nat) (th : thread) (w : world) : world :=
  World (vars w) (redis_client w) (<[tid := th]> (threads w)) (trace w).

(** [threading.Thread(target=streamer)], not started. *)
Definition new_thread (pod_name namespace : string) (w : world) : nat * world :=
  (length (threads w),
   World (vars w) (redis_client w)
     (threads w ++ [Thread pod_name namespace Created None None]) (trace w)).

(** [thread.start()] *)
Definition start (tid : nat) (w : world) : world :=
  match threads w !! tid with
  | Some th =>
      log (ThreadStart tid)
        (set_thread tid
           (Thread (th_pod_name th) (th_namespace th) AtWhile (last_timestamp th)
              (local_current_pod th)) w)
  | None => w
  end.

(** [line.split(' ', 1)] and the branch on [len(parts) == 2] (lines
    301-306): the new [last_timestamp] and [msg]. *)
Definition parse (line : string) (last : option string) : option string * string :=
  match Py.split1 line with
  | [ts; msg] => (Some ts, msg)
  | _ => (last, line)
  end.

(** The [msg] of a line; it does not depend on the timestamp seen before. *)
Definition msg_of (line : string) : string := (parse line None).2.

(** The test of the [while] loop (line 285) and what follows it without
    waiting: either the statements after the loop (lines 322-323) and the
    return, or a new follow request (lines 287-297). *)
Definition while_test (tid : nat) (th : thread) (w : world) : world :=
  if stop_event (vars w) then
    let w := put Py.END w in
    let w := log (LocalPodSet tid None) w in
    set_thread tid
      (Thread (th_pod_name th) (th_namespace th) Returned (last_timestamp th) (Some None)) w
  else
    let tail_lines := match last_timestamp th with None => 100 | Some _ => 0 end in
    let since_time :=
      match last_timestamp th with
      | Some ts => if String.eqb ts EmptyString then None else Some ts
      | None => None
      end in
    let w := log (Follow (th_namespace th) (th_pod_name th) tail_lines since_time) w in
    set_thread tid
      (Thread (th_pod_name th) (th_namespace th) InFor (last_timestamp th) (local_current_pod th)) w.

(** What makes a worker move: it is scheduled at its loop test, or its
    upstream iterator delivers something. *)
Inductive input :=
| Resume
| Up (u : Py.upstream).

(** One step of the worker [tid] of [streamer] (lines 281-323). *)
Definition streamer_step (tid : nat) (i : input) (w : world) : world :=
  match threads w !! tid with
  | None => w
  | Some th =>
      let cache_key := Py.cache_key (th_namespace th) (th_pod_name th) in
      match th_pc th, i with
      | AtWhile, Resume => while_test tid th w
      | InFor, Up (Py.UpLine line) =>
          if stop_event (vars w) then while_test tid th w
          else
            let '(last, msg) := parse line (last_timestamp th) in
            let w := put msg w in
            let w := rpush cache_key msg w in
            let w := if (1000 <? llen cache_key w)%nat then lpop cache_key w else w in
            set_thread tid
              (Thread (th_pod_name th) (th_namespace th) InFor last (local_current_pod th)) w
      | InFor, Up (Py.UpApiException e) =>
          let w := put (Py.error_msg e) w in
          let w := rpush cache_key (Py.error_msg e) w in
          let w := log Sleep w in
          set_thread tid
            (Thread (th_pod_name th) (th_namespace th) AtWhile (last_timestamp th)
               (local_current_pod th)) w
      | InFor, Up Py.UpEnd => while_test tid th w
      | _, _ => w
      end
  end.

Definition schedule := list (nat * input).

Definition run (sched : schedule) (w : world) : world :=
  foldl (λ w step, streamer_step step.1 step.2 w) w sched.

(** [stop_log_streaming()], lines 328-334. *)
Definition stop_log_streaming (during_join : schedule) (w : world) : world :=
  let w := set_stop_event true w in
  match stream_thread (vars w) with
  | None => w
  | Some tid =>
      if alive tid w then
        let w := log (ThreadJoin tid) w in
        let w := run during_join w in
        set_stream_thread None w
      else w
  end.

(** The allow-list of line 32. *)
Definition ALLOWED_NAMESPACES : list string := ["kavosh"; "secure"; "bizagi"].

(** [start_log_streaming(pod_name, namespace)], lines 262-326. *)
Definition start_log_streaming (pod_name namespace : string) (w : world) : world :=
  if decide (namespace ∉ ALLOWED_NAMESPACES) then w
  else
    let w := set_current_pod (Some (PodRef pod_name namespace)) w in
    let w := set_stop_event false w in
    let w := clear_queue w in
    let cache_key := Py.cache_key namespace pod_name in
    let w := delete_key cache_key w in
    let '(tid, w) := new_thread pod_name namespace w in
    let w := set_stream_thread (Some tid) w in
    start tid w.

(** [select_pod(namespace, pod_name)], lines 90-109: status and body of the
    answer, and the new world. *)
Definition select_pod (namespace pod_name : string) (during_join : schedule) (w : world)
  : (nat * string) * world :=
  if decide (namespace ∉ ALLOWED_NAMESPACES) then ((403, "Namespace not allowed"), w)
  else
    let w := stop_log_streaming during_join w in
    let w := clear_queue w in
    let w := start_log_streaming pod_name namespace w in
    ((200, "OK"), w).

Definition generate_variant : Feed.variant := Feed.Variant 10 false true.

(** What one pass of [generate] reads from the module-level state. *)
Definition poll (t_yield t_after : Q) (w : world) : Feed.observation * world :=
  if stop_event (vars w) then (Feed.StopIsSet, w)
  else
    match log_queue (vars w) with
    | line :: _ => (Feed.Got line t_yield t_after, get_nowait w)
    | [] =>
        (Feed.Empty t_yield (match current_pod (vars w) with None => true | Some _ => false end), w)
    end.

End AppV2.

(** ** web-log.py: process-wide state, no allow-list, no cache *)

Module WebLog.

Abbreviation pod_ref := Py.pod_ref.
Abbreviation PodRef := Py.PodRef.

Record globals := Globals {
  current_pod : option pod_ref;
  log_queue : list string;
  stop_event : bool;
  stream_thread : option nat
}.

(** As in appv2.py, [streamer] assigns a local [current_pod] (line 225). *)
Record thread := Thread {
  th_pod_name : string;
  th_namespace : string;
  is_alive : bool;
  local_current_pod : option (option pod_ref)
}.

Inductive effect :=
| QPut (item : string)
| QGet (item : string)
| EvSet
| EvClear
| GlobalPodSet (p : option pod_ref)
| LocalPodSet (tid : nat) (p : option pod_ref)
| ThreadStart (tid : nat)
| ThreadJoin (tid : nat)
| Follow (namespace name : string).   (* read_namespaced_pod_log(follow=True, tail_lines=100) *)

Record world := World {
  vars : globals;
  threads : list thread;
  trace : list effect
}.

Definition empty_world : world := World (Globals None [] false None) [] [].

Definition log (e : effect) (w : world) : world :=
  World (vars w) (threads w) (trace w ++ [e]).

Definition update (f : globals → globals) (w : world) : world :=
  World (f (vars w)) (threads w) (trace w).

Definition put (item : string) (w : world) : world :=
  log (QPut item)
    (update (λ g, Globals (current_pod g) (log_queue g ++ [item]) (stop_event g) (stream_thread g)) w).

Definition get_nowait (w : world) : world :=
  match log_queue (vars w) with
  | [] => w
  | item :: rest =>
      log (QGet item)
        (update (λ g, Globals (current_pod g) rest (stop_event g) (stream_thread g)) w)
  end.

Definition set_stop_event (b : bool) (w : world) : world :=
  log (if b then EvSet else EvClear)
    (update (λ g, Globals (current_pod g) (log_queue g) b (stream_thread g)) w).

Definition set_current_pod (p : option pod_ref) (w : world) : world :=
  log (GlobalPodSet p)
    (update (λ g, Globals p (log_queue g) (stop_event g) (stream_thread g)) w).

Definition set_stream_thread (t : option nat) (w : world) : world :=
  update (λ g, Globals (current_pod g) (log_queue g) (stop_event g) t) w.

Fixpoint drain (n : nat) (w : world) : world :=
  match n with
  | O => w
  | S n' =>
      match log_queue (vars w) with
      | [] => w
      | _ :: _ => drain n' (get_nowait w)
      end
  end.

Definition clear_queue (w : world) : world :=
  drain (length (log_queue (vars w))) w.

Definition alive (tid : nat) (w : world) : bool :=
  match threads w !! tid with
  | Some th => is_alive th
  | None => false
  end.

(** [threading.Thread(target=streamer)], not started. *)
Definition new_thread (pod_name namespace : string) (w : world) : nat * world :=
  (length (threads w),
   World (vars w) (threads w ++ [Thread pod_name namespace false None]) (trace w)).

(** [thread.start()]; the follow request is recorded with the start. *)
Definition start (tid : nat) (w : world) : world :=
  match threads w !! tid with
  | Some th =>
      log (Follow (th_namespace th) (th_pod_name th))
        (log (ThreadStart tid)
           (World (vars w)
              (<[tid := Thread (th_pod_name th) (th_namespace th) true (local_current_pod th)]>
                 (threads w))
              (trace w)))
  | None => w
  end.

(** The [finally] block of [streamer] (lines 222-225), then the return. *)
Definition streamer_finally (tid : nat) (th : thread) (w : world) : world :=
  let w := put Py.END w in
  let w := log (LocalPodSet tid None) w in
  World (vars w)
    (<[tid := Thread (th_pod_name th) (th_namespace th) false (Some None)]> (threads w))
    (trace w).

(** One step of the worker [tid] of [streamer] (lines 209-225). *)
Definition streamer_step (tid : nat) (u : Py.upstream) (w : world) : world :=
  match threads w !! tid with
  | None => w
  | Some th =>
      if negb (is_alive th) then w
      else
        match u with
        | Py.UpLine line =>
            if stop_event (vars w) then streamer_finally tid th w
            else put line w
        | Py.UpApiException e =>
            let w := put (Py.error_msg e) w in
            streamer_finally tid th w
        | Py.UpEnd => streamer_finally tid th w
        end
  end.

Definition schedule := list (nat * Py.upstream).

Definition run (sched : schedule) (w : world) : world :=
  foldl (λ w step, streamer_step step.1 step.2 w) w sched.

(** [stop_log_streaming()], lines 230-236. *)
Definition stop_log_streaming (during_join : schedule) (w : world) : world :=
  let w := set_stop_event true w in
  match stream_thread (vars w) with
  | None => w
  | Some tid =>
      if alive tid w then
        let w := log (ThreadJoin tid) w in
        let w := run during_join w in
        set_stream_thread None w
      else w
  end.

(** [start_log_streaming(pod_name, namespace)], lines 196-228. *)
Definition start_log_streaming (pod_name namespace : string) (w : world) : world :=
  let w := set_current_pod (Some (PodRef pod_name namespace)) w in
  let w := set_stop_event false w in
  let w := clear_queue w in
  let '(tid, w) := new_thread pod_name namespace w in
  let w := set_stream_thread (Some tid) w in
  start tid w.

(** [select_pod(namespace, pod_name)], lines 69-75. *)
Definition select_pod (namespace pod_name : string) (during_join : schedule) (w : world)
  : (nat * string) * world :=
  let w := stop_log_streaming during_join w in
  let w := start_log_streaming pod_name namespace w in
  ((200, "OK"), w).

Definition generate_variant : Feed.variant := Feed.Variant 15 true false.

End WebLog.

(** ** app.py: the feed of a session, the terminal, and runs of the program *)

Module AppOps.
Import App.

(** No step of [sched] is a step of a worker of session [sid]. *)
Definition foreign (sid : string) (sched : schedule) (w : world) : Prop :=
  ∀ tid u th, (tid, u) ∈ sched → threads w !! tid = Some th → th_session th ≠ sid.

(** One pass of [generate] as the world sees it: the steps the worker
    threads take before the poll, and the two clock readings of the
    pass. *)
Definition pass := (schedule * (Q * Q))%type.

(** What the passes of a connection observe.  Once an observation makes
    the generator leave its loop, no further poll is made. *)
Fixpoint observe (sid : string) (passes : list pass) (w : world)
  : list Feed.observation * world :=
  match passes with
  | [] => ([], w)
  | (sched, (t_yield, t_after)) :: passes' =>
      let w := run sched w in
      let '(o, w) := poll sid t_yield t_after w in
      match o with
      | Feed.StopIsSet => ([o], w)
      | Feed.Got line _ _ =>
          if String.eqb line Py.END then ([o], w)
          else let '(obs, w) := observe sid passes' w in (o :: obs, w)
      | Feed.Empty _ _ =>
          let '(obs, w) := observe sid passes' w in (o :: obs, w)
      end
  end.

(** [logs()], lines 77-109: the bundle of the session is looked up or
    created, and [generate] runs on it. *)
Definition logs (sid : string) (t0 : Q) (passes : list pass) (w : world)
  : list Feed.frame * world :=
  let w := _get_or_create_state sid w in
  let '(obs, w) := observe sid passes w in
  (Feed.frames generate_variant t0 obs, w).

(** The test of the wait loop of [stream_pod_logs] (line 372). *)
Definition streaming (sid : string) (w : world) : bool :=
  match stream_thread (state_of sid w) with
  | Some tid => alive tid w && negb (stop_event (state_of sid w))
  | None => false
  end.

(** One pass through that loop: the steps the worker threads take during
    [input_queue.get(timeout=0.5)], and what [get] returns ([None] for
    [queue.Empty]).  The input reader thread and its queue are not part
    of the session bundle here; what it delivers comes in this way. *)
Definition wait := (schedule * option string)%type.

(** The wait loop (lines 371-381).  When the passes run out the loop is
    interrupted (Ctrl+C). *)
Fixpoint wait_loop (sid : string) (waits : list wait) (w : world) : world :=
  match waits with
  | [] => w
  | (sched, user_input) :: waits' =>
      if streaming sid w then
        let w := run sched w in
        match user_input with
        | Some line => if String.eqb line "q" then w else wait_loop sid waits' w
        | None => wait_loop sid waits' w
        end
      else w
  end.

Inductive action :=
| Exit                          (* 'q': sys.exit(0) *)
| ShowAll                       (* 'all': current_namespace = None *)
| Stream (p : pod_entry)        (* a pod index in range *)
| Filter (namespace : string)   (* an allowed namespace name *)
| NotAllowed                    (* anything else that is not empty *)
| Invalid.                      (* the empty line *)

(** What the terminal is given in one turn of the main loop: the cluster
    as it is then, the line typed ([None] for end of input; the line is
    the value of [choice], after [.strip().lower()]), what a stream
    started in this turn meets, and whether the "Press Enter" prompt is
    answered. *)
Record turn := Turn {
  cluster_now : cluster;
  typed : option string;
  join_before : schedule;
  waits : list wait;
  join_after : schedule;
  join_input : schedule;
  enter_pressed : bool
}.

Inductive op :=
| Select (namespace pod_name sid : string) (during_join : schedule)   (* GET /select_pod/... *)
| Pods (namespace : string) (k : cluster)                             (* GET /pods/... *)
| Namespaces (k : cluster)                                            (* GET /namespaces *)
| Connect (sid : string)                                              (* GET /logs *)
| Poll (sid : string) (t_yield t_after : Q)                           (* one pass of a feed *)
| Step (tid : nat) (u : Py.upstream)                                  (* a worker step *)
| Terminal (current_namespace : option string) (t : turn).            (* one turn of main *)

Section Config.

Variable ALLOWED_NAMESPACES : list string.

(** [stream_pod_logs(pod_name, namespace, state)], lines 349-385.  The
    three schedules are what the worker threads do during the three
    joins. *)
Definition stream_pod_logs (pod_name namespace sid : string)
  (join_before : schedule) (waits : list wait) (join_after join_input : schedule)
  (w : world) : world :=
  if decide (namespace ∉ ALLOWED_NAMESPACES) then w
  else
    let w := stop_log_streaming sid join_before w in
    let w := start_log_streaming ALLOWED_NAMESPACES pod_name namespace sid w in
    let w := wait_loop sid waits w in
    let w := set_stop_event sid true w in
    let w := stop_log_streaming sid join_after w in
    run join_input w.

(** Python's [int(choice)]; [None] stands for [ValueError]. *)
Variable int : string → option Z.

(** The branch taken for a line that is no pod index (lines 433-440). *)
Definition as_namespace (choice : string) : action :=
  if decide (choice ∈ ALLOWED_NAMESPACES) then Filter choice else NotAllowed.

(** The dispatch on [choice] in [main], lines 408-443. *)
Definition dispatch (pods : list pod_entry) (choice : string) : action :=
  if String.eqb choice "q" then Exit
  else if String.eqb choice "all" then ShowAll
  else if String.eqb choice EmptyString then Invalid
  else
    match int choice with
    | Some n =>
        let pod_index := (n - 1)%Z in
        if ((0 <=? pod_index) && (pod_index <? Z.of_nat (length pods)))%Z then
          match pods !! Z.to_nat pod_index with
          | Some selected_pod => Stream selected_pod
          | None => as_namespace choice
          end
        else as_namespace choice
    | None => as_namespace choice
    end.

(** The terminal's session (lines 420-430). *)
Definition cli_sid : string := "cli-session".

(** One turn of the loop of [main] (lines 400-443): the namespace filter
    after it ([None] at the outer level when the loop is left) and the
    world. *)
Definition main_turn (current_namespace : option string) (t : turn) (w : world)
  : option (option string) * world :=
  let '(pods, w) := list_pods ALLOWED_NAMESPACES current_namespace (cluster_now t) w in
  match typed t with
  | None => (None, w)
  | Some choice =>
      match dispatch pods choice with
      | Exit => (None, w)
      | ShowAll => (Some None, w)
      | Stream selected_pod =>
          let w := _get_or_create_state cli_sid w in
          let w := stream_pod_logs (Py.name (pod selected_pod))
                     (Py.namespace (pod selected_pod)) cli_sid
                     (join_before t) (waits t) (join_after t) (join_input t) w in
          (Some current_namespace, w)
      | Filter ns => (Some (Some ns), w)
      | NotAllowed | Invalid =>
          if enter_pressed t then (Some current_namespace, w) else (None, w)
      end
  end.

(** The loop of [main] over the turns the terminal is given; the filter it
    starts with is [initial_namespace] when that is allowed. *)
Fixpoint main_loop (current_namespace : option string) (turns : list turn) (w : world)
  : option string * world :=
  match turns with
  | [] => (current_namespace, w)
  | t :: turns' =>
      match main_turn current_namespace t w with
      | (Some current_namespace', w) => main_loop current_namespace' turns' w
      | (None, w) => (current_namespace, w)
      end
  end.

Definition main (initial_namespace : string) (turns : list turn) (w : world)
  : option string * world :=
  main_loop
    (if decide (initial_namespace ∈ ALLOWED_NAMESPACES) then Some initial_namespace else None)
    turns w.

(** What the program does to the world, one operation at a time: the web
    endpoints, the passes of the feeds, the steps of the workers and the
    turns of the terminal, in any order. *)
Definition exec (w : world) (o : op) : world :=
  match o with
  | Select namespace pod_name sid during_join =>
      (select_pod ALLOWED_NAMESPACES namespace pod_name sid during_join w).2
  | Pods namespace k => (get_pods_in_namespace ALLOWED_NAMESPACES namespace k w).2
  | Namespaces k => (get_namespaces ALLOWED_NAMESPACES k w).2
  | Connect sid => _get_or_create_state sid w
  | Poll sid t_yield t_after => (poll sid t_yield t_after w).2
  | Step tid u => streamer_step tid u w
  | Terminal current_namespace t => (main_turn current_namespace t w).2
  end.

Definition execute (ops : list op) (w : world) : world := foldl exec w ops.

(** A follow request and a per-namespace pod listing name an allowed
    namespace; the cluster-wide requests name none and always pass. *)
Definition permitted (e : effect) : Prop :=
  match e with
  | Follow namespace _ => namespace ∈ ALLOWED_NAMESPACES
  | ListNamespacedPod namespace => namespace ∈ ALLOWED_NAMESPACES
  | _ => True
  end.

(** The effects that are recorded on their own, with no change to a
    bundle, the cache or a thread. *)
Definition passive (e : effect) : Prop :=
  match e with
  | Lrange _ | ThreadJoin _ | ListNamespace | ListPodForAllNamespaces => True
  | ListNamespacedPod namespace => namespace ∈ ALLOWED_NAMESPACES
  | _ => False
  end.

(** Every upstream request on record that names a namespace names an
    allowed one, every worker is bound to one, and so is every selected
    pod. *)
Definition within_allow_list (w : world) : Prop :=
  Forall permitted (trace w)
  ∧ Forall (λ th, th_namespace th ∈ ALLOWED_NAMESPACES) (threads w)
  ∧ ∀ sid p, current_pod (state_of sid w) = Some p → Py.namespace p ∈ ALLOWED_NAMESPACES.

End Config.

End AppOps.

(** ** appv2.py: the resumption point of a worker *)

Module AppV2View.
Import AppV2.

(** The value of [last_timestamp] after the lines [lines], starting from
    [last]: the token before the first space of the last line that holds
    a space, if there is one. *)
Definition resume_point (last : option string) (lines : list string) : option string :=
  foldl (λ last line, (parse line last).1) last lines.

End AppV2View.

(** ** Reading a feed

    What can be read off the frames of a connection and off the
    observations that produced them. *)

Module FeedView.
Import Feed.

(** The lines of the log frames, in order. *)
Fixpoint log_lines (fs : list frame) : list string :=
  match fs with
  | [] => []
  | f :: fs' =>
      match ev f with
      | Log line _ => line :: log_lines fs'
      | _ => log_lines fs'
      end
  end.

(** The lines a connection takes off the queue while it is in its loop:
    those of the [Got] observations before the first observation that
    makes it leave (stop signal set, or the sentinel). *)
Fixpoint taken (obs : list observation) : list string :=
  match obs with
  | [] => []
  | StopIsSet :: _ => []
  | Got line _ _ :: obs' =>
      if String.eqb line Py.END then [] else line :: taken obs'
  | Empty _ _ :: obs' => taken obs'
  end.

(** Whether some observation makes the generator leave its loop. *)
Fixpoint leaves (obs : list observation) : bool :=
  match obs with
  | [] => false
  | StopIsSet :: _ => true
  | Got line _ _ :: obs' => if String.eqb line Py.END then true else leaves obs'
  | Empty _ _ :: obs' => leaves obs'
  end.

Definition is_waiting (f : frame) : bool :=
  match ev f with WaitingForLogs => true | _ => false end.

Definition is_log (f : frame) : bool :=
  match ev f with Log _ _ => true | _ => false end.

Definition is_ended (f : frame) : bool :=
  match ev f with StreamEnded => true | _ => false end.

Fixpoint count (p : frame → bool) (fs : list frame) : nat :=
  match fs with
  | [] => 0
  | f :: fs' => if p f then S (count p fs') else count p fs'
  end.

(** The clock reading of the last frame of [fs]; [t] when [fs] is empty. *)
Fixpoint last_emission (t : Q) (fs : list frame) : Q :=
  match fs with
  | [] => t
  | f :: fs' => last_emission (at_time f) fs'
  end.

(** Every heartbeat frame of [fs] comes more than [d] after the frame
    before it ([prev] is the time of the frame before the first). *)
Fixpoint heartbeats_spaced (d prev : Q) (fs : list frame) : Prop :=
  match fs with
  | [] => True
  | f :: fs' =>
      (ev f = Heartbeat → (d < at_time f - prev)%Q)
      ∧ heartbeats_spaced d (at_time f) fs'
  end.

End FeedView.

(** * Theorems *)

Section RedisFacts.
Import Redis.

Lemma entry_rpush_eq key item r :
  entry key (rpush key item r) = entry key r ++ [item].
Proof. unfold entry, rpush. by rewrite lookup_insert_eq. Qed.

Lemma entry_rpush_ne key key' item r :
  key ≠ key' → entry key' (rpush key item r) = entry key' r.
Proof. intros Hne. unfold entry, rpush. by rewrite lookup_insert_ne. Qed.

Lemma entry_lpop_eq key r :
  entry key (lpop key r) = tail (entry key r).
Proof.
  unfold lpop. destruct (entry key r) as [|x [|y rest]] eqn:E; simpl.
  - by rewrite E.
  - unfold entry. by rewrite lookup_delete_eq.
  - unfold entry. by rewrite lookup_insert_eq.
Qed.

Lemma entry_lpop_ne key key' r :
  key ≠ key' → entry key' (lpop key r) = entry key' r.
Proof.
  intros Hne. unfold lpop. destruct (entry key r) as [|x [|y rest]]; [done| |].
  - unfold entry. by rewrite lookup_delete_ne.
  - unfold entry. by rewrite lookup_insert_ne.
Qed.

Lemma entry_del_eq key r : entry key (del key r) = [].
Proof. unfold entry, del. by rewrite lookup_delete_eq. Qed.

Lemma entry_del_ne key key' r :
  key ≠ key' → entry key' (del key r) = entry key' r.
Proof. intros Hne. unfold entry, del. by rewrite lookup_delete_ne. Qed.

End RedisFacts.

Section FeedIdle.
Import Feed.

Variable v : variant.
Hypothesis threshold : (10 <= heartbeat_after v)%Q.

(** Once "waiting" is out, an idle feed yields heartbeats only, each more
    than the threshold after the previous frame. *)
Lemma idle_after_waiting (polls : list Q) (t : Q) :
  Forall is_heartbeat (loop v (Locals t true) (idle polls)) ∧
  spaced 10 t (loop v (Locals t true) (idle polls)).
Proof.
  revert t. induction polls as [|p polls IH]; intros t; simpl.
  - split; constructor.
  - destruct (Qlt_le_dec (heartbeat_after v) (p - t)) as [Hlt|Hle]; simpl.
    + destruct (IH p) as [IH1 IH2]. split.
      * constructor; [reflexivity | exact IH1].
      * split; [lra | exact IH2].
    + apply IH.
Qed.

Lemma idle_frames (t0 t1 : Q) (polls : list Q) :
  ∃ rest,
    frames v t0 (idle (t1 :: polls))
    = Frame Connected t0 :: Frame WaitingForLogs t1 :: rest
    ∧ Forall is_heartbeat rest
    ∧ spaced 10 t1 rest.
Proof.
  exists (loop v (Locals t1 true) (idle polls)).
  split; [reflexivity | apply idle_after_waiting].
Qed.

End FeedIdle.

(** ** app.py: how the primitives act on a session bundle *)

Section AppFrame.
Import App.

Lemma state_of_update sid sid' f w :
  state_of sid' (update sid f w)
  = if decide (sid = sid') then f (state_of sid w) else state_of sid' w.
Proof.
  unfold state_of, update; simpl. case_decide as Hd.
  - subst. by rewrite lookup_insert_eq.
  - by rewrite lookup_insert_ne.
Qed.

Lemma update_present sid f w :
  sessions (update sid f w) !! sid = Some (state_of sid (update sid f w)).
Proof. unfold state_of, update. simpl. by rewrite lookup_insert_eq. Qed.

Lemma state_of_update_eq sid f w : state_of sid (update sid f w) = f (state_of sid w).
Proof. rewrite state_of_update. by case_decide. Qed.

Lemma state_of_put sid sid' item w :
  state_of sid' (put sid item w)
  = if decide (sid = sid')
    then State (current_pod (state_of sid w)) (log_queue (state_of sid w) ++ [item])
           (stop_event (state_of sid w)) (stream_thread (state_of sid w))
    else state_of sid' w.
Proof. unfold put. apply state_of_update. Qed.

Lemma state_of_set_current_pod sid sid' p w :
  state_of sid' (set_current_pod sid p w)
  = if decide (sid = sid')
    then State p (log_queue (state_of sid w)) (stop_event (state_of sid w))
           (stream_thread (state_of sid w))
    else state_of sid' w.
Proof. unfold set_current_pod. apply state_of_update. Qed.

Lemma state_of_set_stop_event sid sid' b w :
  state_of sid' (set_stop_event sid b w)
  = if decide (sid = sid')
    then State (current_pod (state_of sid w)) (log_queue (state_of sid w)) b
           (stream_thread (state_of sid w))
    else state_of sid' w.
Proof. unfold set_stop_event. apply state_of_update. Qed.

Lemma state_of_set_stream_thread sid sid' t w :
  state_of sid' (set_stream_thread sid t w)
  = if decide (sid = sid')
    then State (current_pod (state_of sid w)) (log_queue (state_of sid w))
           (stop_event (state_of sid w)) t
    else state_of sid' w.
Proof. unfold set_stream_thread. apply state_of_update. Qed.

Lemma state_of_exit_thread sid tid w : state_of sid (exit_thread tid w) = state_of sid w.
Proof. unfold exit_thread. by destruct (threads w !! tid). Qed.

Lemma state_of_get_or_create sid w :
  state_of sid (_get_or_create_state sid w) = state_of sid w.
Proof.
  unfold _get_or_create_state, state_of.
  destruct (sessions w !! sid) eqn:E; simpl; [by rewrite E|].
  by rewrite lookup_insert_eq.
Qed.

Lemma state_of_get_nowait sid sid' w :
  state_of sid' (get_nowait sid w)
  = if decide (sid = sid')
    then State (current_pod (state_of sid w)) (tail (log_queue (state_of sid w)))
           (stop_event (state_of sid w)) (stream_thread (state_of sid w))
    else state_of sid' w.
Proof.
  unfold get_nowait. destruct (log_queue (state_of sid w)) as [|x q] eqn:E.
  - case_decide; [subst|done]. simpl. destruct (state_of sid' w); simpl in *; by subst.
  - change (state_of sid' (log (QGet sid x) ?w')) with (state_of sid' w').
    rewrite state_of_update. by case_decide.
Qed.

(** Clearing the queue takes every item off, in order, and touches
    nothing else. *)
Lemma drain_spec n sid w :
  (length (log_queue (state_of sid w)) ≤ n)%nat →
  state_of sid (drain n sid w)
  = State (current_pod (state_of sid w)) [] (stop_event (state_of sid w))
      (stream_thread (state_of sid w))
  ∧ redis_client (drain n sid w) = redis_client w
  ∧ threads (drain n sid w) = threads w
  ∧ trace (drain n sid w) = trace w ++ map (QGet sid) (log_queue (state_of sid w)).
Proof.
  revert w. induction n as [|n IH]; intros w Hn; simpl.
  - destruct (log_queue (state_of sid w)) eqn:E; [|simpl in Hn; lia].
    rewrite app_nil_r. repeat split. destruct (state_of sid w); simpl in *; by subst.
  - destruct (log_queue (state_of sid w)) as [|x q] eqn:E.
    + rewrite app_nil_r. repeat split. destruct (state_of sid w); simpl in *; by subst.
    + assert (Hg : state_of sid (get_nowait sid w)
                   = State (current_pod (state_of sid w)) q (stop_event (state_of sid w))
                       (stream_thread (state_of sid w))).
      { rewrite state_of_get_nowait. case_decide; [|done]. by rewrite E. }
      destruct (IH (get_nowait sid w)) as (H1 & H2 & H3 & H4).
      { rewrite Hg. simpl in *. lia. }
      rewrite H1, H2, H3, H4, Hg. simpl.
      unfold get_nowait. rewrite E. simpl.
      repeat split. by rewrite <- app_assoc.
Qed.

Lemma clear_queue_spec sid w :
  state_of sid (clear_queue sid w)
  = State (current_pod (state_of sid w)) [] (stop_event (state_of sid w))
      (stream_thread (state_of sid w))
  ∧ redis_client (clear_queue sid w) = redis_client w
  ∧ threads (clear_queue sid w) = threads w
  ∧ trace (clear_queue sid w) = trace w ++ map (QGet sid) (log_queue (state_of sid w)).
Proof. apply drain_spec. done. Qed.

(** Pushing a list of items appends them in order. *)
Lemma puts_spec sid items w :
  let w' := foldl (λ w log, put sid log w) w items in
  state_of sid w'
  = State (current_pod (state_of sid w)) (log_queue (state_of sid w) ++ items)
      (stop_event (state_of sid w)) (stream_thread (state_of sid w))
  ∧ redis_client w' = redis_client w
  ∧ threads w' = threads w
  ∧ trace w' = trace w ++ map (QPut sid) items.
Proof.
  revert w. induction items as [|x items IH]; intros w; simpl.
  - rewrite !app_nil_r. repeat split. by destruct (state_of sid w).
  - destruct (IH (put sid x w)) as (H1 & H2 & H3 & H4).
    rewrite H1, H2, H3, H4. rewrite state_of_put. case_decide; [|done]. simpl.
    repeat split; by rewrite <- app_assoc.
Qed.

End AppFrame.

(** ** app.py: one worker step *)

Section AppWorker.
Import App.

Lemma state_of_rpush sid key item w : state_of sid (rpush key item w) = state_of sid w.
Proof. reflexivity. Qed.

Lemma state_of_lpop sid key w : state_of sid (lpop key w) = state_of sid w.
Proof. reflexivity. Qed.

Lemma state_of_delete_key sid key w : state_of sid (delete_key key w) = state_of sid w.
Proof. reflexivity. Qed.

Lemma state_of_log sid e w : state_of sid (log e w) = state_of sid w.
Proof. reflexivity. Qed.

Lemma threads_exit_thread tid w th :
  threads w !! tid = Some th →
  threads (exit_thread tid w)
  = <[tid := Thread (th_session th) (th_pod_name th) (th_namespace th) false]> (threads w).
Proof. intros H. unfold exit_thread. by rewrite H. Qed.

(** The [finally] block: the sentinel goes on the queue, the pod reference
    of the bundle is cleared, the thread is gone. *)
Lemma streamer_finally_spec tid th w :
  threads w !! tid = Some th →
  let sid := th_session th in
  let w' := streamer_finally tid sid w in
  state_of sid w'
  = State None (log_queue (state_of sid w) ++ [Py.END]) (stop_event (state_of sid w))
      (stream_thread (state_of sid w))
  ∧ (∀ sid', sid' ≠ sid → state_of sid' w' = state_of sid' w)
  ∧ redis_client w' = redis_client w
  ∧ threads w'
    = <[tid := Thread (th_session th) (th_pod_name th) (th_namespace th) false]> (threads w)
  ∧ trace w' = trace w ++ [QPut sid Py.END; PodSet sid None].
Proof.
  intros Hth sid w'. subst w'. unfold streamer_finally.
  rewrite !state_of_exit_thread.
  split; [|split; [|split; [|split]]].
  - rewrite state_of_set_current_pod. case_decide; [|done].
    rewrite state_of_put. case_decide; [|done]. reflexivity.
  - intros sid' Hne. rewrite state_of_exit_thread, state_of_set_current_pod.
    case_decide; [congruence|]. rewrite state_of_put. case_decide; [congruence|done].
  - unfold exit_thread. simpl. rewrite Hth. reflexivity.
  - erewrite threads_exit_thread; [reflexivity|exact Hth].
  - unfold exit_thread. simpl. rewrite Hth. simpl. by rewrite <- app_assoc.
Qed.

(** A thread that has returned, or was never started, does nothing. *)
Lemma streamer_step_not_alive tid u w :
  alive tid w = false → streamer_step tid u w = w.
Proof.
  unfold alive, streamer_step. destruct (threads w !! tid) as [th|]; [|done].
  intros ->. reflexivity.
Qed.

(** A line that arrives while the stop signal is clear: it goes on the
    queue of the worker's session and at the end of the cache entry; the
    entry loses its head when it has grown past 1000. *)
Lemma streamer_step_line tid th line w :
  threads w !! tid = Some th → is_alive th = true →
  stop_event (state_of (th_session th) w) = false →
  let sid := th_session th in
  let key := Py.cache_key (th_namespace th) (th_pod_name th) in
  let w' := streamer_step tid (Py.UpLine line) w in
  let pushed := Redis.entry key (redis_client w) ++ [line] in
  state_of sid w'
  = State (current_pod (state_of sid w)) (log_queue (state_of sid w) ++ [line])
      false (stream_thread (state_of sid w))
  ∧ (∀ sid', sid' ≠ sid → state_of sid' w' = state_of sid' w)
  ∧ threads w' = threads w
  ∧ Redis.entry key (redis_client w')
    = (if (1000 <? length pushed)%nat then tail pushed else pushed)
  ∧ (∀ key', key' ≠ key →
       Redis.entry key' (redis_client w') = Redis.entry key' (redis_client w))
  ∧ trace w'
    = trace w ++ [QPut sid line; Rpush key line]
      ++ (if (1000 <? length pushed)%nat then [Lpop key] else []).
Proof.
  intros Hth Hal Hstop sid key w' pushed. subst w' pushed sid key.
  unfold streamer_step. rewrite Hth, Hal. cbn [negb]. cbv zeta. rewrite Hstop.
  set (sid := th_session th) in *. set (key := Py.cache_key _ _).
  set (pushed := Redis.entry key (redis_client w) ++ [line]).
  assert (Hlen : llen key (rpush key line (put sid line w)) = length pushed).
  { unfold llen, Redis.llen. simpl. by rewrite entry_rpush_eq. }
  rewrite Hlen.
  destruct (1000 <? length pushed)%nat.
  - split; [|split; [|split; [|split; [|split]]]].
    + rewrite state_of_lpop, state_of_rpush, state_of_put. case_decide; [|done].
      by rewrite Hstop.
    + intros sid' Hne. rewrite state_of_lpop, state_of_rpush, state_of_put.
      case_decide; [congruence|done].
    + reflexivity.
    + simpl. by rewrite entry_lpop_eq, entry_rpush_eq.
    + intros key' Hne. simpl. rewrite entry_lpop_ne, entry_rpush_ne; done.
    + simpl. by rewrite <- !app_assoc.
  - split; [|split; [|split; [|split; [|split]]]].
    + rewrite state_of_rpush, state_of_put. case_decide; [|done]. by rewrite Hstop.
    + intros sid' Hne. rewrite state_of_rpush, state_of_put.
      case_decide; [congruence|done].
    + reflexivity.
    + simpl. by rewrite entry_rpush_eq.
    + intros key' Hne. simpl. rewrite entry_rpush_ne; done.
    + simpl. by rewrite <- !app_assoc.
Qed.

(** A line that arrives once the stop signal is set, or the end of the
    upstream iterator: the [finally] block runs. *)
Lemma streamer_step_finally tid th u w :
  threads w !! tid = Some th → is_alive th = true →
  (u = Py.UpEnd ∨ ∃ line, u = Py.UpLine line ∧ stop_event (state_of (th_session th) w) = true) →
  streamer_step tid u w = streamer_finally tid (th_session th) w.
Proof.
  intros Hth Hal Hu. unfold streamer_step. rewrite Hth, Hal. cbn [negb]. cbv zeta.
  destruct Hu as [->|(line & -> & ->)]; reflexivity.
Qed.

(** An [ApiException]: the synthetic line goes on the queue and into the
    cache, with no trimming, and the [finally] block runs. *)
Lemma streamer_step_error tid th e w :
  threads w !! tid = Some th → is_alive th = true →
  let sid := th_session th in
  let key := Py.cache_key (th_namespace th) (th_pod_name th) in
  streamer_step tid (Py.UpApiException e) w
  = streamer_finally tid sid (rpush key (Py.error_msg e) (put sid (Py.error_msg e) w)).
Proof. intros Hth Hal. unfold streamer_step. rewrite Hth, Hal. reflexivity. Qed.

End AppWorker.

(** ** app.py: what no worker step can do *)

Section AppInvariants.
Import App.

Lemma alive_true tid w :
  alive tid w = true ↔ ∃ th, threads w !! tid = Some th ∧ is_alive th = true.
Proof.
  unfold alive. destruct (threads w !! tid) as [th|]; split.
  - intros H. by exists th.
  - by intros (th' & [= <-] & H).
  - done.
  - by intros (th' & [=] & _).
Qed.

(** A step leaves the thread table alone or marks its own thread as
    returned. *)
Lemma streamer_step_threads tid u w :
  threads (streamer_step tid u w) = threads w
  ∨ ∃ th, threads w !! tid = Some th ∧ is_alive th = true
          ∧ threads (streamer_step tid u w) = <[tid := dead th]> (threads w).
Proof.
  destruct (alive tid w) eqn:Hal.
  - apply alive_true in Hal as (th & Hth & Hal).
    destruct u as [line|e|].
    + destruct (stop_event (state_of (th_session th) w)) eqn:Hs.
      * right. exists th. split; [done|split; [done|]].
        erewrite streamer_step_finally by eauto.
        by destruct (streamer_finally_spec tid th w Hth) as (_ & _ & _ & -> & _).
      * left. by destruct (streamer_step_line tid th line w Hth Hal Hs) as (_ & _ & -> & _).
    + right. exists th. split; [done|split; [done|]].
      rewrite (streamer_step_error tid th e w Hth Hal).
      set (w1 := rpush _ _ _).
      assert (Hth1 : threads w1 !! tid = Some th) by exact Hth.
      by destruct (streamer_finally_spec tid th w1 Hth1) as (_ & _ & _ & -> & _).
    + right. exists th. split; [done|split; [done|]].
      erewrite streamer_step_finally by eauto.
      by destruct (streamer_finally_spec tid th w Hth) as (_ & _ & _ & -> & _).
  - left. by rewrite streamer_step_not_alive.
Qed.

(** Once the stop signal of its session is set, any step of a running
    worker is its last. *)
Lemma streamer_step_stopped tid th u w :
  threads w !! tid = Some th → is_alive th = true →
  stop_event (state_of (th_session th) w) = true →
  threads (streamer_step tid u w) = <[tid := dead th]> (threads w).
Proof.
  intros Hth Hal Hs. destruct u as [line|e|].
  - erewrite streamer_step_finally by eauto.
    by destruct (streamer_finally_spec tid th w Hth) as (_ & _ & _ & -> & _).
  - rewrite (streamer_step_error tid th e w Hth Hal).
    set (w1 := rpush _ _ _).
    assert (Hth1 : threads w1 !! tid = Some th) by exact Hth.
    by destruct (streamer_finally_spec tid th w1 Hth1) as (_ & _ & _ & -> & _).
  - erewrite streamer_step_finally by eauto.
    by destruct (streamer_finally_spec tid th w Hth) as (_ & _ & _ & -> & _).
Qed.

(** No step touches a stop signal or a worker handle. *)
Lemma streamer_step_signals tid u w sid :
  stop_event (state_of sid (streamer_step tid u w)) = stop_event (state_of sid w)
  ∧ stream_thread (state_of sid (streamer_step tid u w)) = stream_thread (state_of sid w).
Proof.
  destruct (alive tid w) eqn:Hal; [|by rewrite streamer_step_not_alive].
  apply alive_true in Hal as (th & Hth & Hal).
  assert (Hfin : ∀ w1, threads w1 !! tid = Some th →
            stop_event (state_of sid (streamer_finally tid (th_session th) w1))
            = stop_event (state_of sid w1)
            ∧ stream_thread (state_of sid (streamer_finally tid (th_session th) w1))
              = stream_thread (state_of sid w1)).
  { intros w1 H1. destruct (streamer_finally_spec tid th w1 H1) as (Hs & Ho & _).
    destruct (decide (sid = th_session th)) as [->|Hne].
    - by rewrite Hs.
    - by rewrite Ho. }
  destruct u as [line|e|].
  - destruct (stop_event (state_of (th_session th) w)) eqn:Hs.
    + erewrite streamer_step_finally by eauto. by apply Hfin.
    + destruct (streamer_step_line tid th line w Hth Hal Hs) as (H1 & H2 & _).
      destruct (decide (sid = th_session th)) as [->|Hne].
      * rewrite H1. simpl. by rewrite Hs.
      * by rewrite H2.
  - rewrite (streamer_step_error tid th e w Hth Hal).
    set (w1 := rpush _ _ _).
    destruct (Hfin w1 Hth) as [-> ->]. subst w1.
    rewrite state_of_rpush, state_of_put. by case_decide; subst.
  - erewrite streamer_step_finally by eauto. by apply Hfin.
Qed.

Lemma run_signals sched w sid :
  stop_event (state_of sid (run sched w)) = stop_event (state_of sid w)
  ∧ stream_thread (state_of sid (run sched w)) = stream_thread (state_of sid w).
Proof.
  revert w. induction sched as [|[tid u] sched IH]; intros w; simpl; [done|].
  destruct (IH (streamer_step tid u w)) as [-> ->]. apply streamer_step_signals.
Qed.

(** Threads are never revived, and keep their session. *)
Lemma streamer_step_lookup tid u w tid' th' :
  threads (streamer_step tid u w) !! tid' = Some th' →
  ∃ th, threads w !! tid' = Some th ∧ th_session th = th_session th'
        ∧ (is_alive th' = true → th' = th ∧ (tid' = tid → threads (streamer_step tid u w) = threads w)).
Proof.
  intros H. destruct (streamer_step_threads tid u w) as [Heq|(th & Hth & Hal & Heq)].
  - rewrite Heq in H. exists th'. auto.
  - rewrite Heq in H. destruct (decide (tid = tid')) as [<-|Hne].
    + rewrite list_lookup_insert_eq in H by (by eapply lookup_lt_Some).
      injection H as <-. exists th. split; [done|]. split; [done|]. simpl. done.
    + rewrite list_lookup_insert_ne in H by done. exists th'.
      split; [done|]. split; [done|]. intros _. split; [done|]. congruence.
Qed.

Lemma quiet_step sid tid u w : quiet sid w → quiet sid (streamer_step tid u w).
Proof.
  intros Hq tid' th' H Hs.
  destruct (streamer_step_lookup _ _ _ _ _ H) as (th & Hth & Hsess & Hal).
  destruct (is_alive th') eqn:E; [|done].
  destruct (Hal eq_refl) as [-> _]. rewrite <- E. eapply Hq; eauto.
Qed.

Lemma quiet_run sid sched w : quiet sid w → quiet sid (run sched w).
Proof.
  revert w. induction sched as [|[tid u] sched IH]; intros w Hq; simpl; [done|].
  apply IH. by apply quiet_step.
Qed.

Lemma only_step sid t tid u w : only sid t w → only sid t (streamer_step tid u w).
Proof.
  intros Ho tid' th' H Hs Hal.
  destruct (streamer_step_lookup _ _ _ _ _ H) as (th & Hth & Hsess & Hal').
  destruct (Hal' Hal) as [-> _]. eapply Ho; eauto.
Qed.

(** With the stop signal set, the step of the one running worker of the
    session leaves the session without a running worker. *)
Lemma only_step_quiet sid tid u w :
  only sid tid w → stop_event (state_of sid w) = true →
  quiet sid (streamer_step tid u w).
Proof.
  intros Ho Hs tid' th' H Hsess.
  destruct (is_alive th') eqn:E; [|done].
  destruct (streamer_step_lookup _ _ _ _ _ H) as (th & Hth & Hsess' & Hal).
  destruct (Hal E) as [-> Hsame].
  assert (tid' = tid) as -> by (eapply Ho; eauto).
  subst sid.
  rewrite (streamer_step_stopped tid th u w Hth E Hs) in H.
  rewrite list_lookup_insert_eq in H by (by eapply lookup_lt_Some).
  injection H as H. rewrite <- H in E. simpl in E. done.
Qed.

Lemma run_quiet sid tid sched w :
  only sid tid w → stop_event (state_of sid w) = true →
  (∃ u, (tid, u) ∈ sched) →
  quiet sid (run sched w).
Proof.
  revert w. induction sched as [|[t u] sched IH]; intros w Ho Hs [u0 Hin].
  - by apply elem_of_nil in Hin.
  - simpl. apply elem_of_cons in Hin as [[= <- <-]|Hin].
    + apply quiet_run. by apply only_step_quiet.
    + apply IH.
      * by apply only_step.
      * by rewrite (proj1 (streamer_step_signals t u w sid)).
      * by exists u0.
Qed.

Lemma quiet_active_workers sid w : quiet sid w → active_workers sid w = [].
Proof.
  intros Hq. unfold active_workers.
  destruct (filter _ (threads w)) as [|th rest] eqn:E; [done|].
  assert (Hin : th ∈ filter (λ th, th_session th = sid ∧ is_alive th = true) (threads w))
    by (rewrite E; left).
  apply list_elem_of_filter in Hin as [[Hs Hal] Hin].
  apply list_elem_of_lookup in Hin as [tid Hth].
  rewrite (Hq tid th Hth Hs) in Hal. done.
Qed.

End AppInvariants.

(** ** app.py: the stream controller *)

Section AppController.
Import App.

Variable ALLOWED_NAMESPACES : list string.

Lemma start_log_streaming_spec pod_name namespace sid w :
  namespace ∈ ALLOWED_NAMESPACES →
  let key := Py.cache_key namespace pod_name in
  let tid := length (threads w) in
  let w' := start_log_streaming ALLOWED_NAMESPACES pod_name namespace sid w in
  state_of sid w' = State (Some (PodRef pod_name namespace)) [] false (Some tid)
  ∧ redis_client w' = Redis.del key (redis_client w)
  ∧ threads w' = threads w ++ [Thread sid pod_name namespace true]
  ∧ trace w'
    = trace w ++ [PodSet sid (Some (PodRef pod_name namespace)); EvClear sid]
      ++ map (QGet sid) (log_queue (state_of sid w))
      ++ [Delete key; ThreadStart tid; Follow namespace pod_name].
Proof.
  intros Hin key tid w'. subst w'. unfold start_log_streaming.
  case_decide as Hd; [done|]. fold key.
  set (w1 := set_stop_event sid false (set_current_pod sid _ w)).
  assert (Hs1 : state_of sid w1
                = State (Some (PodRef pod_name namespace)) (log_queue (state_of sid w))
                    false (stream_thread (state_of sid w))).
  { subst w1. rewrite state_of_set_stop_event. case_decide; [|done].
    rewrite state_of_set_current_pod. by case_decide. }
  destruct (clear_queue_spec sid w1) as (Hc1 & Hc2 & Hc3 & Hc4).
  rewrite Hs1 in Hc1, Hc4. simpl in Hc1, Hc4.
  unfold new_thread. cbv zeta.
  assert (Hlen : length (threads (delete_key key (clear_queue sid w1))) = tid)
    by (simpl; by rewrite Hc3).
  rewrite Hlen.
  set (w2 := delete_key key (clear_queue sid w1)).
  set (w3 := set_stream_thread sid (Some tid) _).
  assert (Hth3 : threads w3 = threads w ++ [Thread sid pod_name namespace false])
    by (subst w3 w2; simpl; by rewrite Hc3).
  assert (Hlook : threads w3 !! tid = Some (Thread sid pod_name namespace false)).
  { rewrite Hth3. rewrite lookup_app_r by done. by rewrite Nat.sub_diag. }
  assert (Hst3 : state_of sid w3
                 = State (Some (PodRef pod_name namespace)) [] false (Some tid)).
  { subst w3. rewrite state_of_set_stream_thread. case_decide; [|done].
    change (state_of sid (World (sessions w2) ?r ?t ?tr)) with (state_of sid w2).
    subst w2. by rewrite state_of_delete_key, Hc1. }
  unfold start. rewrite Hlook. cbn [th_session th_pod_name th_namespace].
  split; [|split; [|split]].
  - exact Hst3.
  - subst w3 w2. simpl. by rewrite Hc2.
  - cbn [threads log]. rewrite Hth3. rewrite insert_app_r_alt by done.
    by rewrite Nat.sub_diag.
  - subst w3 w2. simpl. rewrite Hc4. by rewrite <- !app_assoc.
Qed.


(** [stop_log_streaming] either joins the worker behind the handle or only
    raises the signal. *)
Lemma stop_log_streaming_cases sid sched w :
  (∃ tid, stream_thread (state_of sid w) = Some tid ∧ alive tid w = true
          ∧ stop_log_streaming sid sched w
            = set_stream_thread sid None
                (run sched (log (ThreadJoin tid) (set_stop_event sid true w))))
  ∨ ((∀ tid, stream_thread (state_of sid w) = Some tid → alive tid w = false)
     ∧ stop_log_streaming sid sched w = set_stop_event sid true w).
Proof.
  unfold stop_log_streaming.
  rewrite state_of_set_stop_event. case_decide; [|done]. simpl.
  destruct (stream_thread (state_of sid w)) as [tid|] eqn:Eh.
  - change (alive tid (set_stop_event sid true w)) with (alive tid w).
    destruct (alive tid w) eqn:Hal.
    + left. by exists tid.
    + right. split; [|done]. by intros ? [= <-].
  - right. split; [|done]. done.
Qed.

Lemma stop_log_streaming_quiet sid sched w :
  quiet sid w → quiet sid (stop_log_streaming sid sched w).
Proof.
  intros Hq. destruct (stop_log_streaming_cases sid sched w) as [(tid & _ & _ & ->)|[_ ->]].
  - change (quiet sid (run sched (log (ThreadJoin tid) (set_stop_event sid true w)))).
    by apply quiet_run.
  - exact Hq.
Qed.

Lemma stop_log_streaming_signal sid sched w :
  stop_event (state_of sid (stop_log_streaming sid sched w)) = true.
Proof.
  destruct (stop_log_streaming_cases sid sched w) as [(tid & _ & _ & ->)|[_ ->]].
  - rewrite state_of_set_stream_thread. case_decide; [|done]. simpl.
    rewrite (proj1 (run_signals _ _ _)), state_of_log, state_of_set_stop_event.
    by case_decide.
  - rewrite state_of_set_stop_event. by case_decide.
Qed.

(** An accepted selection, step by step: stop, read the cache, push what
    was read, then everything [start_log_streaming] does. *)
Lemma select_pod_accepted namespace pod_name sid sched w :
  namespace ∈ ALLOWED_NAMESPACES →
  let key := Py.cache_key namespace pod_name in
  let w1 := stop_log_streaming sid sched (_get_or_create_state sid w) in
  let cached_logs := Redis.entry key (redis_client w1) in
  let tid := length (threads w1) in
  let r := select_pod ALLOWED_NAMESPACES namespace pod_name sid sched w in
  r.1 = Text 200 "OK"
  ∧ state_of sid r.2 = State (Some (PodRef pod_name namespace)) [] false (Some tid)
  ∧ redis_client r.2 = Redis.del key (redis_client w1)
  ∧ threads r.2 = threads w1 ++ [Thread sid pod_name namespace true]
  ∧ trace r.2
    = trace w1 ++ [Lrange key] ++ map (QPut sid) cached_logs
      ++ [PodSet sid (Some (PodRef pod_name namespace)); EvClear sid]
      ++ map (QGet sid) (log_queue (state_of sid w1) ++ cached_logs)
      ++ [Delete key; ThreadStart tid; Follow namespace pod_name].
Proof.
  intros Hin key w1 cached_logs tid r. subst r. unfold select_pod.
  case_decide as Hd; [done|]. fold key w1. unfold lrange. simpl.
  change (Redis.lrange_all key (redis_client w1)) with cached_logs.
  set (w2 := foldl _ (log (Lrange key) w1) cached_logs).
  destruct (puts_spec sid cached_logs (log (Lrange key) w1)) as (Hp1 & Hp2 & Hp3 & Hp4).
  fold w2 in Hp1, Hp2, Hp3, Hp4. rewrite state_of_log in Hp1. simpl in Hp2, Hp3, Hp4.
  destruct (start_log_streaming_spec pod_name namespace sid w2 Hin) as (H1 & H2 & H3 & H4).
  fold key in H2, H4.
  split; [done|]. split; [|split; [|split]].
  - rewrite H1. by rewrite Hp3.
  - by rewrite H2, Hp2.
  - by rewrite H3, Hp3.
  - rewrite H4, Hp4, Hp1, Hp3. simpl. by rewrite <- !app_assoc.
Qed.

Lemma select_pod_rejected namespace pod_name sid sched w :
  namespace ∉ ALLOWED_NAMESPACES →
  select_pod ALLOWED_NAMESPACES namespace pod_name sid sched w
  = (Text 403 "Namespace not allowed", _get_or_create_state sid w).
Proof. intros Hn. unfold select_pod. by case_decide. Qed.

Lemma threads_get_or_create sid w : threads (_get_or_create_state sid w) = threads w.
Proof. unfold _get_or_create_state. by destruct (sessions w !! sid). Qed.

Lemma quiet_get_or_create sid sid' w : quiet sid w → quiet sid (_get_or_create_state sid' w).
Proof. unfold quiet. by rewrite threads_get_or_create. Qed.

End AppController.

(** ** app.py: where the lines of a cache entry come from *)

Section AppCache.
Import App.

Lemma streamer_step_provenance tid u w key :
  ∃ suf, trace (streamer_step tid u w) = trace w ++ suf
         ∧ ∀ x, x ∈ Redis.entry key (redis_client (streamer_step tid u w)) →
                x ∈ Redis.entry key (redis_client w) ∨ Rpush key x ∈ suf.
Proof.
  destruct (alive tid w) eqn:Hal.
  2:{ rewrite streamer_step_not_alive by done. exists []. rewrite app_nil_r. auto. }
  apply alive_true in Hal as (th & Hth & Hal).
  assert (Hfin : ∀ w1, threads w1 !! tid = Some th →
            trace (streamer_finally tid (th_session th) w1)
            = trace w1 ++ [QPut (th_session th) Py.END; PodSet (th_session th) None]
            ∧ redis_client (streamer_finally tid (th_session th) w1) = redis_client w1).
  { intros w1 H1.
    by destruct (streamer_finally_spec tid th w1 H1) as (_ & _ & -> & _ & ->). }
  destruct u as [line|e|].
  - destruct (stop_event (state_of (th_session th) w)) eqn:Hs.
    + erewrite streamer_step_finally by eauto. destruct (Hfin w Hth) as [-> ->]. eauto.
    + destruct (streamer_step_line tid th line w Hth Hal Hs) as (_ & _ & _ & He & Ho & ->).
      set (key0 := Py.cache_key (th_namespace th) (th_pod_name th)) in *.
      eexists. split; [reflexivity|]. intros x Hx.
      destruct (decide (key = key0)) as [->|Hne].
      * rewrite He in Hx.
        assert (Hx' : x ∈ Redis.entry key0 (redis_client w) ++ [line]).
        { destruct (1000 <? _)%nat; [|done].
          destruct (Redis.entry key0 (redis_client w) ++ [line]); simpl in Hx; [done|by right]. }
        apply elem_of_app in Hx' as [Hx'|Hx']; [by left|].
        apply list_elem_of_singleton in Hx' as ->. right.
        apply elem_of_app. left. right. left.
      * rewrite Ho in Hx by done. by left.
  - rewrite (streamer_step_error tid th e w Hth Hal).
    set (key0 := Py.cache_key (th_namespace th) (th_pod_name th)).
    set (w1 := rpush key0 _ _). destruct (Hfin w1 Hth) as [-> ->].
    subst w1. simpl. rewrite <- !app_assoc. eexists. split; [reflexivity|].
    intros x Hx. destruct (decide (key = key0)) as [->|Hne].
    + rewrite entry_rpush_eq in Hx. apply elem_of_app in Hx as [Hx|Hx]; [by left|].
      apply list_elem_of_singleton in Hx as ->. right. simpl. right. left.
    + rewrite entry_rpush_ne in Hx by done. by left.
  - erewrite streamer_step_finally by eauto. destruct (Hfin w Hth) as [-> ->]. eauto.
Qed.

Lemma run_provenance sched w key :
  ∃ suf, trace (run sched w) = trace w ++ suf
         ∧ ∀ x, x ∈ Redis.entry key (redis_client (run sched w)) →
                x ∈ Redis.entry key (redis_client w) ∨ Rpush key x ∈ suf.
Proof.
  revert w. induction sched as [|[tid u] sched IH]; intros w; simpl.
  - exists []. rewrite app_nil_r. auto.
  - destruct (IH (streamer_step tid u w)) as (suf2 & Ht2 & Hx2).
    destruct (streamer_step_provenance tid u w key) as (suf1 & Ht1 & Hx1).
    exists (suf1 ++ suf2). split.
    + by rewrite Ht2, Ht1, <- app_assoc.
    + intros x Hx. destruct (Hx2 x Hx) as [H|H].
      * destruct (Hx1 x H) as [H'|H']; [by left|]. right. apply elem_of_app. by left.
      * right. apply elem_of_app. by right.
Qed.

End AppCache.

(** ** app.py: one worker generation *)

Section AppGeneration.
Import App.

(** While lines arrive and the stop signal stays clear, the worker puts
    them on the queue in order and stays alive. *)
Lemma run_lines tid th lines w :
  threads w !! tid = Some th → is_alive th = true →
  stop_event (state_of (th_session th) w) = false →
  let sid := th_session th in
  let w' := run (map (λ l, (tid, Py.UpLine l)) lines) w in
  state_of sid w'
  = State (current_pod (state_of sid w)) (log_queue (state_of sid w) ++ lines) false
      (stream_thread (state_of sid w))
  ∧ threads w' = threads w.
Proof.
  intros Hth Hal Hs sid w'. subst w'. revert w Hth Hs.
  induction lines as [|l lines IH]; intros w Hth Hs; simpl.
  - rewrite app_nil_r. split; [|done]. fold sid in Hs.
    destruct (state_of sid w); simpl in *; by subst.
  - destruct (streamer_step_line tid th l w Hth Hal Hs) as (H1 & _ & H3 & _).
    fold sid in H1.
    destruct (IH (streamer_step tid (Py.UpLine l) w)) as [IH1 IH2].
    + by rewrite H3.
    + fold sid. by rewrite H1.
    + rewrite IH1, IH2, H1, H3. simpl. by rewrite <- app_assoc.
Qed.

Lemma alive_exit tid th w :
  threads w !! tid = Some th →
  alive tid (streamer_finally tid (th_session th) w) = false.
Proof.
  intros Hth. destruct (streamer_finally_spec tid th w Hth) as (_ & _ & _ & H & _).
  unfold alive. rewrite H.
  rewrite list_lookup_insert_eq by (by eapply lookup_lt_Some). done.
Qed.

End AppGeneration.

(** ** appv2.py: one worker generation *)

Section AppV2Generation.
Import AppV2.

Lemma parse_msg line last : (parse line last).2 = msg_of line.
Proof.
  unfold msg_of, parse. by destruct (Py.split1 line) as [|a [|b [|c l]]].
Qed.

Lemma lookup_set_thread tid th th' w :
  threads w !! tid = Some th → threads (set_thread tid th' w) !! tid = Some th'.
Proof.
  intros H. unfold set_thread. simpl.
  apply list_lookup_insert_eq. by eapply lookup_lt_Some.
Qed.

(** A line received in the [for] loop with the stop signal clear: its
    [msg] goes on the queue, and the worker stays in the loop. *)
Lemma streamer_step_line_in_for tid th line w :
  threads w !! tid = Some th → th_pc th = InFor → stop_event (vars w) = false →
  let w' := streamer_step tid (Up (Py.UpLine line)) w in
  log_queue (vars w') = log_queue (vars w) ++ [msg_of line]
  ∧ stop_event (vars w') = false
  ∧ ∃ th', threads w' !! tid = Some th' ∧ th_pc th' = InFor.
Proof.
  intros Hth Hpc Hs. cbv zeta. unfold streamer_step. rewrite Hth, Hpc, Hs.
  rewrite <- (parse_msg line (last_timestamp th)).
  destruct (parse line (last_timestamp th)) as [last msg]. cbv zeta. simpl.
  destruct (1000 <? _)%nat; simpl.
  - split; [done|]. split; [done|]. eexists.
    split; [apply list_lookup_insert_eq; by eapply lookup_lt_Some|reflexivity].
  - split; [done|]. split; [done|]. eexists.
    split; [apply list_lookup_insert_eq; by eapply lookup_lt_Some|reflexivity].
Qed.

Lemma run_lines_in_for tid th lines w :
  threads w !! tid = Some th → th_pc th = InFor → stop_event (vars w) = false →
  let w' := run (map (λ l, (tid, Up (Py.UpLine l))) lines) w in
  log_queue (vars w') = log_queue (vars w) ++ map msg_of lines
  ∧ stop_event (vars w') = false
  ∧ ∃ th', threads w' !! tid = Some th' ∧ th_pc th' = InFor.
Proof.
  cbv zeta. revert th w. induction lines as [|l lines IH]; intros th w Hth Hpc Hs; simpl.
  - rewrite app_nil_r. eauto.
  - destruct (streamer_step_line_in_for tid th l w Hth Hpc Hs) as (Hq & Hs' & th' & Hth' & Hpc').
    destruct (IH th' _ Hth' Hpc' Hs') as (IHq & IHs & IHt).
    rewrite IHq, Hq, <- app_assoc. eauto.
Qed.

(** The loop test with the stop signal set: the sentinel goes on the
    queue and the worker returns. *)
Lemma while_test_stopped tid th w :
  threads w !! tid = Some th → stop_event (vars w) = true →
  log_queue (vars (while_test tid th w)) = log_queue (vars w) ++ [Py.END]
  ∧ alive tid (while_test tid th w) = false.
Proof.
  intros Hth Hs. unfold while_test. rewrite Hs. split; [done|].
  unfold alive. erewrite lookup_set_thread; [done|exact Hth].
Qed.

(** The loop test with the stop signal clear: a new follow request, and
    nothing on the queue. *)
Lemma while_test_running tid th w :
  threads w !! tid = Some th → stop_event (vars w) = false →
  log_queue (vars (while_test tid th w)) = log_queue (vars w)
  ∧ alive tid (while_test tid th w) = true.
Proof.
  intros Hth Hs. unfold while_test. rewrite Hs. split; [done|].
  unfold alive. erewrite lookup_set_thread; [done|exact Hth].
Qed.

Lemma streamer_step_returned tid i w :
  alive tid w = false → streamer_step tid i w = w.
Proof.
  unfold alive, streamer_step. destruct (threads w !! tid) as [th|]; [|done].
  by destruct (th_pc th), i.
Qed.

End AppV2Generation.

(** * The claims *)

Section Claims_App.
Import App.

(** C1, evaluated on app.py.  Session "t" follows pod b, whose line "b1"
    is in the cache; session "s" follows pod a and has its line "a1" on
    the queue.  Then "s" selects pod b, and its old worker returns during
    the join.  [select_pod] pushes the cached line "b1" first; the queue
    is cleared later, inside [start_log_streaming], and the clear takes
    "b1" off together with what the old pod had left: the order is push,
    then clear, and the warm start reaches nobody. *)
Theorem C1_select_pod_pushes_cache_then_clears :
  let allowed := ["kavosh"; "secure"; "bizagi"] in
  let w1 := run [(0, Py.UpLine "b1")] (select_pod allowed "kavosh" "b" "t" [] empty_world).2 in
  let w2 := run [(1, Py.UpLine "a1")] (select_pod allowed "kavosh" "a" "s" [] w1).2 in
  let r := select_pod allowed "kavosh" "b" "s" [(1, Py.UpLine "a2")] w2 in
  Redis.entry "logs:kavosh:b" (redis_client w2) = ["b1"]
  ∧ log_queue (state_of "s" w2) = ["a1"]
  ∧ r.1 = Text 200 "OK"
  ∧ drop (length (trace w2)) (trace r.2)
    = [EvSet "s"; ThreadJoin 1; QPut "s" "__END__"; PodSet "s" None;
       Lrange "logs:kavosh:b"; QPut "s" "b1";
       PodSet "s" (Some (PodRef "b" "kavosh")); EvClear "s";
       QGet "s" "a1"; QGet "s" "__END__"; QGet "s" "b1";
       Delete "logs:kavosh:b"; ThreadStart 2; Follow "kavosh" "b"]
  ∧ log_queue (state_of "s" r.2) = [].
Proof. vm_compute. done. Qed.

(** C2, evaluated on app.py.  Session "s" follows pod a; its worker is
    blocked on its upstream and gets nothing during the bounded join of
    [stop], so the join times out: [stop] drops the handle while the
    worker is still running.  The selection of pod b that follows finds no
    handle to join, clears the stop signal that was meant for the old
    worker, and starts a second worker: two workers of the session are
    running.  When the old upstream then delivers a line and ends, the old
    worker finds the signal clear, puts the line of pod a and its
    sentinel on the queue of pod b, and clears the pod reference of the
    session, while the worker of pod b is still running. *)
Theorem C2_join_timeout_leaves_two_workers :
  let allowed := ["kavosh"; "secure"; "bizagi"] in
  let w1 := (select_pod allowed "kavosh" "a" "s" [] empty_world).2 in
  let w2 := stop_log_streaming "s" [] w1 in
  let w3 := (select_pod allowed "kavosh" "b" "s" [] w2).2 in
  let w4 := run [(0, Py.UpLine "a1"); (0, Py.UpEnd)] w3 in
  active_workers "s" w1 = [Thread "s" "a" "kavosh" true]
  ∧ stop_event (state_of "s" w2) = true
  ∧ stream_thread (state_of "s" w2) = None
  ∧ alive 0 w2 = true
  ∧ active_workers "s" w3
    = [Thread "s" "a" "kavosh" true; Thread "s" "b" "kavosh" true]
  ∧ stop_event (state_of "s" w3) = false
  ∧ current_pod (state_of "s" w3) = Some (PodRef "b" "kavosh")
  ∧ stream_thread (state_of "s" w3) = Some 1
  ∧ log_queue (state_of "s" w4) = ["a1"; "__END__"]
  ∧ current_pod (state_of "s" w4) = None
  ∧ alive 1 w4 = true.
Proof. vm_compute. done. Qed.

(** C10, on app.py.  For an accepted selection the cache entry of the pod
    is read ([Lrange]), then deleted, and only then is the new worker
    started; the entry is gone when [select_pod] returns, whatever an
    earlier run of any session had left in it; and whatever the workers do
    afterwards, every line found in the entry was pushed after this
    start.  The deletion is part of [start_log_streaming], so a stream
    started from the terminal deletes the entry as well. *)
Theorem C10_select_deletes_cache_entry
  (allowed : list string) (namespace pod_name sid : string) (sched : schedule) (w : world) :
  namespace ∈ allowed →
  let key := Py.cache_key namespace pod_name in
  let w' := (select_pod allowed namespace pod_name sid sched w).2 in
  (∃ before between tid,
      trace w' = before ++ [Lrange key] ++ between
                 ++ [Delete key; ThreadStart tid; Follow namespace pod_name]
      ∧ threads w' !! tid = Some (Thread sid pod_name namespace true))
  ∧ redis_client w' !! key = None
  ∧ (∀ (later : schedule) (line : string),
       line ∈ Redis.entry key (redis_client (run later w')) →
       ∃ since, trace (run later w') = trace w' ++ since ∧ Rpush key line ∈ since)
  ∧ redis_client (start_log_streaming allowed pod_name namespace sid w) !! key = None.
Proof.
  intros Hin key w'. subst w'.
  destruct (select_pod_accepted allowed namespace pod_name sid sched w Hin)
    as (_ & _ & Hr & Hth & Htr). fold key in Hr, Htr.
  split; [|split; [|split]].
  - set (w1 := stop_log_streaming sid sched (_get_or_create_state sid w)) in *.
    exists (trace w1),
      (map (QPut sid) (Redis.entry key (redis_client w1))
       ++ [PodSet sid (Some (PodRef pod_name namespace)); EvClear sid]
       ++ map (QGet sid) (log_queue (state_of sid w1) ++ Redis.entry key (redis_client w1))),
      (length (threads w1)).
    split.
    + rewrite Htr. by rewrite <- !app_assoc.
    + rewrite Hth. rewrite lookup_app_r by done. by rewrite Nat.sub_diag.
  - rewrite Hr. apply lookup_delete_eq.
  - intros later line Hline.
    destruct (run_provenance later (select_pod allowed namespace pod_name sid sched w).2 key)
      as (since & Ht & Hx).
    exists since. split; [done|]. destruct (Hx line Hline) as [Hold|Hnew]; [|done].
    rewrite Hr, entry_del_eq in Hold. by apply elem_of_nil in Hold.
  - destruct (start_log_streaming_spec allowed pod_name namespace sid w Hin)
      as (_ & Hr' & _).
    rewrite Hr'. apply lookup_delete_eq.
Qed.

Lemma C10_witness :
  let allowed := ["kavosh"; "secure"; "bizagi"] in
  let w := World ∅ {["logs:kavosh:p" := ["old"]]} [] [] in
  "kavosh" ∈ allowed
  ∧ redis_client (select_pod allowed "kavosh" "p" "s" [] w).2 !! "logs:kavosh:p" = None.
Proof.
  intros allowed w.
  assert (Hin : "kavosh" ∈ allowed) by (vm_compute; left).
  split; [exact Hin|].
  exact (proj1 (proj2 (C10_select_deletes_cache_entry allowed "kavosh" "p" "s" [] w Hin))).
Defined.

End Claims_App.

Section Claims_App_Worker.
Import App.

(** C3, as stated, fails on app.py when the upstream raises: the worker
    puts a synthetic error line between the lines and the sentinel. *)
Lemma C3_counterexample_upstream_error :
  let w1 := (select_pod ["kavosh"; "secure"; "bizagi"] "kavosh" "p" "s" [] empty_world).2 in
  let w2 := run [(0, Py.UpLine "a"); (0, Py.UpApiException "boom")] w1 in
  log_queue (state_of "s" w2) = ["a"; "Error streaming logs: boom"; "__END__"]
  ∧ log_queue (state_of "s" w2) ≠ ["a"; "__END__"].
Proof. vm_compute. done. Qed.

(** C3, amended.  A running worker whose stop signal is clear receives
    [lines] from its upstream.

    In app.py it appends exactly these lines, in order, and is still
    running.  Then
    - if the upstream ends, it appends the sentinel and returns;
    - if the stop signal is raised, the next thing its upstream delivers
      (a line, which is not appended, or the end) makes it append the
      sentinel and return;
    - if the upstream raises, it appends one synthetic error line, then the
      sentinel, and returns.

    In appv2.py it appends the [msg] of each line, in order.  Then
    - if the upstream ends, it appends nothing and follows again;
    - if the upstream raises, it appends one synthetic error line and goes
      on to retry;
    - if the stop signal is raised, the next thing its upstream delivers
      makes it append the sentinel and return.

    In both, a worker that has returned appends nothing, so the sentinel
    is the last item of its generation. *)
Theorem C3_worker_generation_on_queue (lines : list string) :
  (∀ (tid : nat) (th : thread) (w : world),
     threads w !! tid = Some th → is_alive th = true →
     stop_event (state_of (th_session th) w) = false →
     let sid := th_session th in
     let q := log_queue (state_of sid w) in
     let w' := run (map (λ l, (tid, Py.UpLine l)) lines) w in
     (log_queue (state_of sid w') = q ++ lines ∧ alive tid w' = true)
     ∧ (let wf := streamer_step tid Py.UpEnd w' in
        log_queue (state_of sid wf) = q ++ lines ++ [Py.END] ∧ alive tid wf = false)
     ∧ (∀ u, u = Py.UpEnd ∨ (∃ l, u = Py.UpLine l) →
          let wf := streamer_step tid u (set_stop_event sid true w') in
          log_queue (state_of sid wf) = q ++ lines ++ [Py.END] ∧ alive tid wf = false)
     ∧ (∀ e, let wf := streamer_step tid (Py.UpApiException e) w' in
          log_queue (state_of sid wf) = q ++ lines ++ [Py.error_msg e; Py.END]
          ∧ alive tid wf = false)
     ∧ (∀ wf u, alive tid wf = false → streamer_step tid u wf = wf))
  ∧ (∀ (tid : nat) (th : AppV2.thread) (w : AppV2.world),
       AppV2.threads w !! tid = Some th → AppV2.th_pc th = AppV2.InFor →
       AppV2.stop_event (AppV2.vars w) = false →
       let q := AppV2.log_queue (AppV2.vars w) in
       let w' := AppV2.run (map (λ l, (tid, AppV2.Up (Py.UpLine l))) lines) w in
       (AppV2.log_queue (AppV2.vars w') = q ++ map AppV2.msg_of lines
        ∧ AppV2.alive tid w' = true)
       ∧ (let wf := AppV2.streamer_step tid (AppV2.Up Py.UpEnd) w' in
          AppV2.log_queue (AppV2.vars wf) = q ++ map AppV2.msg_of lines
          ∧ AppV2.alive tid wf = true)
       ∧ (∀ e, let wf := AppV2.streamer_step tid (AppV2.Up (Py.UpApiException e)) w' in
            AppV2.log_queue (AppV2.vars wf)
            = q ++ map AppV2.msg_of lines ++ [Py.error_msg e]
            ∧ AppV2.alive tid wf = true)
       ∧ (∀ u, u = Py.UpEnd ∨ (∃ l, u = Py.UpLine l) →
            let wf := AppV2.streamer_step tid (AppV2.Up u) (AppV2.set_stop_event true w') in
            AppV2.log_queue (AppV2.vars wf) = q ++ map AppV2.msg_of lines ++ [Py.END]
            ∧ AppV2.alive tid wf = false)
       ∧ (∀ wf i, AppV2.alive tid wf = false → AppV2.streamer_step tid i wf = wf)).
Proof.
  split.
  - intros tid th w Hth Hal Hs sid q w'. subst sid.
    destruct (run_lines tid th lines w Hth Hal Hs) as [Hst Hthr].
    fold w' in Hst, Hthr. fold q in Hst.
    assert (Hth' : threads w' !! tid = Some th) by (by rewrite Hthr).
    split; [|split; [|split; [|split]]].
    + split; [by rewrite Hst|]. apply alive_true. eauto.
    + cbv zeta. erewrite streamer_step_finally by eauto.
      destruct (streamer_finally_spec tid th w' Hth') as (H1 & _).
      rewrite H1, Hst. simpl. split; [by rewrite <- app_assoc|].
      by apply alive_exit.
    + intros u Hu. cbv zeta.
      set (w2 := set_stop_event (th_session th) true w').
      assert (Hth2 : threads w2 !! tid = Some th) by exact Hth'.
      assert (Hst2 : state_of (th_session th) w2
                     = State (current_pod (state_of (th_session th) w)) (q ++ lines) true
                         (stream_thread (state_of (th_session th) w))).
      { subst w2. rewrite state_of_set_stop_event. case_decide; [|done]. by rewrite Hst. }
      rewrite (streamer_step_finally tid th u w2 Hth2 Hal).
      * destruct (streamer_finally_spec tid th w2 Hth2) as (H1 & _).
        rewrite H1, Hst2. simpl. split; [by rewrite <- app_assoc|].
        by apply alive_exit.
      * destruct Hu as [->|[l ->]]; [by left|]. right. exists l. split; [done|].
        by rewrite Hst2.
    + intros e. cbv zeta. rewrite (streamer_step_error tid th e w' Hth' Hal).
      set (w2 := rpush _ _ (put (th_session th) (Py.error_msg e) w')).
      assert (Hth2 : threads w2 !! tid = Some th) by exact Hth'.
      destruct (streamer_finally_spec tid th w2 Hth2) as (H1 & _).
      rewrite H1. subst w2. rewrite state_of_rpush, state_of_put.
      case_decide; [|done]. rewrite Hst. simpl. split; [by rewrite <- !app_assoc|].
      by apply alive_exit.
    + intros wf u Hd. by apply streamer_step_not_alive.
  - intros tid th w Hth Hpc Hs q w'.
    destruct (run_lines_in_for tid th lines w Hth Hpc Hs) as (Hq & Hs' & th' & Hth' & Hpc').
    fold w' in Hq, Hs', Hth'. fold q in Hq.
    split; [|split; [|split; [|split]]].
    + split; [done|]. unfold AppV2.alive. by rewrite Hth', Hpc'.
    + cbv zeta. unfold AppV2.streamer_step. rewrite Hth', Hpc'.
      destruct (while_test_running tid th' w' Hth' Hs') as [-> ->]. done.
    + intros e. cbv zeta. unfold AppV2.streamer_step. rewrite Hth', Hpc'. cbv zeta.
      simpl. rewrite Hq, <- app_assoc. split; [done|].
      unfold AppV2.alive. simpl.
      rewrite list_lookup_insert_eq by (by eapply lookup_lt_Some). done.
    + intros u Hu. cbv zeta. set (w2 := AppV2.set_stop_event true w').
      assert (Hth2 : AppV2.threads w2 !! tid = Some th') by exact Hth'.
      assert (Hs2 : AppV2.stop_event (AppV2.vars w2) = true) by reflexivity.
      assert (Hq2 : AppV2.log_queue (AppV2.vars w2) = q ++ map AppV2.msg_of lines)
        by exact Hq.
      assert (Hstep : AppV2.streamer_step tid (AppV2.Up u) w2 = AppV2.while_test tid th' w2).
      { unfold AppV2.streamer_step. rewrite Hth2, Hpc'.
        destruct Hu as [->|[l ->]]; [done|]. by rewrite Hs2. }
      rewrite Hstep. destruct (while_test_stopped tid th' w2 Hth2 Hs2) as [-> ->].
      by rewrite Hq2, <- app_assoc.
    + intros wf i Hd. by apply streamer_step_returned.
Qed.

Lemma C3_witness :
  let w := (select_pod ["kavosh"; "secure"; "bizagi"] "kavosh" "p" "s" [] empty_world).2 in
  let w' := run (map (λ l, (0, Py.UpLine l)) ["a"; "b"]) w in
  log_queue (state_of "s" (streamer_step 0 Py.UpEnd w')) = [] ++ ["a"; "b"] ++ [Py.END].
Proof.
  intros w w'.
  refine (proj1 (proj1 (proj2
    (proj1 (C3_worker_generation_on_queue ["a"; "b"])
       0 (Thread "s" "p" "kavosh" true) w _ _ _))));
    reflexivity.
Defined.

(** C5, evaluated.  In app.py a fresh worker receives 1000 lines, which
    fill the cache entry to the cap, and then the upstream raises: the
    synthetic error line is pushed with no trimming after it, and the
    entry holds 1001 lines, the oldest still among them.  In appv2.py the
    worker retries after an error, and every error adds a line that is
    never trimmed away: after 1000 lines, two errors and one more line the
    entry holds 1002 lines. *)
Theorem C5_error_line_overflows_cache :
  (let w1 := (select_pod ["kavosh"; "secure"; "bizagi"] "kavosh" "p" "s" [] empty_world).2 in
   let w2 := run (map (λ l, (0, Py.UpLine l)) (replicate 1000 "x")
                  ++ [(0, Py.UpApiException "boom")]) w1 in
   let cached := Redis.entry "logs:kavosh:p" (redis_client w2) in
   length cached = 1001 ∧ head cached = Some "x"
   ∧ last cached = Some "Error streaming logs: boom")
  ∧ (let w1 := (AppV2.select_pod "kavosh" "p" [] AppV2.empty_world).2 in
     let w2 := AppV2.run
                 ([(0, AppV2.Resume)]
                  ++ map (λ l, (0, AppV2.Up (Py.UpLine l))) (replicate 1000 "x")
                  ++ [(0, AppV2.Up (Py.UpApiException "boom")); (0, AppV2.Resume);
                      (0, AppV2.Up (Py.UpApiException "boom")); (0, AppV2.Resume);
                      (0, AppV2.Up (Py.UpLine "y"))]) w1 in
     length (Redis.entry "logs:kavosh:p" (AppV2.redis_client w2)) = 1002).
Proof. vm_compute. done. Qed.

(** On the path of an ordinary line the cap holds: an entry of at most
    1000 lines has at most 1000 lines after the step, and at the cap the
    line that goes is the oldest. *)
Lemma cache_capped_on_lines tid th line w :
  threads w !! tid = Some th → is_alive th = true →
  stop_event (state_of (th_session th) w) = false →
  let key := Py.cache_key (th_namespace th) (th_pod_name th) in
  let old := Redis.entry key (redis_client w) in
  (length old ≤ 1000)%nat →
  Redis.entry key (redis_client (streamer_step tid (Py.UpLine line) w))
  = (if decide (length old = 1000) then tail old ++ [line] else old ++ [line])
  ∧ (length (Redis.entry key (redis_client (streamer_step tid (Py.UpLine line) w))) ≤ 1000)%nat.
Proof.
  intros Hth Hal Hs key old Hlen.
  destruct (streamer_step_line tid th line w Hth Hal Hs) as (_ & _ & _ & He & _).
  fold key old in He. rewrite He. rewrite length_app. simpl.
  destruct (Nat.ltb_spec 1000 (length old + 1)) as [Hlt|Hge].
  - case_decide; [|lia]. destruct old as [|x old']; [simpl in *; lia|].
    simpl. split; [done|]. rewrite length_app. simpl in *. lia.
  - case_decide; [lia|]. split; [done|]. rewrite length_app. simpl. lia.
Qed.

End Claims_App_Worker.

Section Claims_App_Stop.
Import App.

(** With no running worker behind the handle, [stop_log_streaming] only
    raises the stop signal. *)
Lemma stop_log_streaming_idle sid sched w :
  (∀ tid, stream_thread (state_of sid w) = Some tid → alive tid w = false) →
  stop_log_streaming sid sched w = set_stop_event sid true w.
Proof.
  intros Hno. destruct (stop_log_streaming_cases sid sched w) as [(tid & Hh & Hal & _)|[_ ->]].
  - rewrite (Hno tid Hh) in Hal. done.
  - done.
Qed.

(** After a stop no running worker is behind the handle. *)
Lemma stop_log_streaming_handle sid sched w tid :
  stream_thread (state_of sid (stop_log_streaming sid sched w)) = Some tid →
  alive tid (stop_log_streaming sid sched w) = false.
Proof.
  destruct (stop_log_streaming_cases sid sched w) as [(t & Hh & Hal & ->)|[Hno ->]].
  - rewrite state_of_set_stream_thread. by case_decide.
  - rewrite state_of_set_stop_event. case_decide; [|done]. simpl. intros Hh.
    change (alive tid w = false). by apply Hno.
Qed.

Lemma stop_log_streaming_present sid sched w :
  sessions (stop_log_streaming sid sched w) !! sid
  = Some (state_of sid (stop_log_streaming sid sched w)).
Proof.
  destruct (stop_log_streaming_cases sid sched w) as [(t & Hh & Hal & ->)|[Hno ->]].
  - apply update_present.
  - apply (update_present sid).
Qed.

(** C9, as stated, fails on app.py.  A fresh session has no worker; its
    feed answers an empty poll with "no pod selected" and goes on.  After
    [stop] on that session the same poll finds the stop signal set, and the
    feed yields its final frame and closes. *)
Lemma C9_counterexample_stop_ends_idle_feed :
  let w := _get_or_create_state "s" empty_world in
  let w' := stop_log_streaming "s" [] w in
  stream_thread (state_of "s" w) = None
  ∧ Feed.loop generate_variant (Feed.Locals 0 false) [(poll "s" 1 1 w).1]
    = [Feed.Frame Feed.NoPodSelected 1]
  ∧ Feed.loop generate_variant (Feed.Locals 0 false) [(poll "s" 1 1 w').1]
    = [Feed.Frame Feed.StreamEnded 0].
Proof. vm_compute. done. Qed.

(** C9, amended, on app.py.  A second [stop] changes nothing that the
    first has left (bundles, cache and threads are the same); and on a
    session with no running worker behind its handle, [stop] leaves the
    queue, the pod reference, the handle, the cache and the threads as they
    are and sets the stop signal, which is what ends a connected feed. *)
Theorem C9_stop_idempotent_and_raises_signal (sid : string) (s1 s2 : schedule) (w : world) :
  (let w1 := stop_log_streaming sid s1 w in
   let w2 := stop_log_streaming sid s2 w1 in
   sessions w2 = sessions w1 ∧ redis_client w2 = redis_client w1 ∧ threads w2 = threads w1)
  ∧ ((∀ tid, stream_thread (state_of sid w) = Some tid → alive tid w = false) →
     let w1 := stop_log_streaming sid s1 w in
     state_of sid w1
     = State (current_pod (state_of sid w)) (log_queue (state_of sid w)) true
         (stream_thread (state_of sid w))
     ∧ redis_client w1 = redis_client w ∧ threads w1 = threads w
     ∧ (poll sid 0 0 w1).1 = Feed.StopIsSet).
Proof.
  split.
  - simpl. set (w1 := stop_log_streaming sid s1 w).
    rewrite (stop_log_streaming_idle sid s2 w1)
      by (intros tid; apply stop_log_streaming_handle).
    split; [|done]. unfold set_stop_event, update. simpl.
    apply insert_id. subst w1. rewrite stop_log_streaming_present. f_equal.
    pose proof (stop_log_streaming_signal sid s1 w) as Hs.
    destruct (state_of sid (stop_log_streaming sid s1 w)); simpl in *; by subst.
  - intros Hno. simpl. rewrite (stop_log_streaming_idle sid s1 w Hno).
    assert (Hst : state_of sid (set_stop_event sid true w)
                  = State (current_pod (state_of sid w)) (log_queue (state_of sid w)) true
                      (stream_thread (state_of sid w))).
    { rewrite state_of_set_stop_event. by case_decide. }
    split; [exact Hst|]. split; [done|]. split; [done|].
    unfold poll. by rewrite Hst.
Qed.

Lemma C9_witness :
  let w := _get_or_create_state "s" empty_world in
  (∀ tid, stream_thread (state_of "s" w) = Some tid → alive tid w = false)
  ∧ stop_event (state_of "s" (stop_log_streaming "s" [] w)) = true.
Proof.
  intros w.
  assert (Hno : ∀ tid, stream_thread (state_of "s" w) = Some tid → alive tid w = false)
    by (intros tid H; vm_compute in H; done).
  split; [exact Hno|].
  rewrite (proj1 (proj2 (C9_stop_idempotent_and_raises_signal "s" [] [] w) Hno)).
  reflexivity.
Defined.

End Claims_App_Stop.

Section Claims_Allow_List.





End Claims_Allow_List.

Section Claims_AppV2.
Import AppV2.

Lemma split1_no_space s : Py.has_space s = false → Py.split1 s = [s].
Proof.
  induction s as [|c s IH]; simpl; [done|].
  destruct (Ascii.eqb c " "); [done|]. intros H. by rewrite (IH H).
Qed.

Lemma split1_at_space token body :
  Py.has_space token = false → Py.split1 (token +:+ " " +:+ body) = [token; body].
Proof.
  induction token as [|c token IH]; simpl; [done|].
  destruct (Ascii.eqb c " "); [done|]. intros H. by rewrite (IH H).
Qed.

(** A line that arrives while the worker is in its [for] loop and the stop
    signal is clear puts exactly one item on the queue: the [msg] that
    [parse] returns. *)
Lemma streamer_step_line_v2 tid th line w :
  threads w !! tid = Some th → th_pc th = InFor → stop_event (vars w) = false →
  log_queue (vars (streamer_step tid (Up (Py.UpLine line)) w))
  = log_queue (vars w) ++ [(parse line (last_timestamp th)).2].
Proof.
  intros Hth Hpc Hs. unfold streamer_step. rewrite Hth, Hpc, Hs.
  destruct (parse line (last_timestamp th)) as [last msg]. simpl.
  by destruct (1000 <? _)%nat.
Qed.

(** No step of an appv2.py worker assigns the module-level [current_pod]. *)
Lemma streamer_step_keeps_global_pod tid i w :
  current_pod (vars (streamer_step tid i w)) = current_pod (vars w).
Proof.
  unfold streamer_step. destruct (threads w !! tid) as [th|]; [|done].
  destruct (th_pc th), i as [|[line|e|]]; try done; unfold while_test;
    repeat match goal with
      | |- context [if ?b then _ else _] => destruct b
      | |- context [let '(_, _) := ?p in _] => destruct p
      end; reflexivity.
Qed.

(** C6, evaluated on appv2.py.  A pod is selected, its worker connects,
    and [stop_log_streaming] raises the stop signal; the next line makes
    the worker leave its loops, append the sentinel and return.  Its last
    statement assigns the local name [current_pod] of [streamer]: the
    module-level [current_pod], which the feed reads, still holds the
    pod.  In app.py the same run ends with the pod reference of the
    session cleared, right after the sentinel. *)
Theorem C6_appv2_worker_exit_keeps_current_pod :
  (let w1 := (select_pod "kavosh" "p" [] empty_world).2 in
   let w2 := run [(0, Resume)] w1 in
   let w3 := stop_log_streaming [(0, Up (Py.UpLine "2024-01-01T00:00:00Z bye"))] w2 in
   alive 0 w3 = false
   ∧ log_queue (vars w3) = ["__END__"]
   ∧ (local_current_pod <$> threads w3 !! 0) = Some (Some None)
   ∧ current_pod (vars w3) = Some (PodRef "p" "kavosh")
   ∧ trace w3
     = [EvSet; GlobalPodSet (Some (PodRef "p" "kavosh")); EvClear;
        Delete "logs:kavosh:p"; ThreadStart 0; Follow "kavosh" "p" 100 None;
        EvSet; ThreadJoin 0; QPut "__END__"; LocalPodSet 0 None])
  ∧ (let w1 := (App.select_pod ["kavosh"; "secure"; "bizagi"] "kavosh" "p" "s" []
                  App.empty_world).2 in
     let w3 := App.stop_log_streaming "s" [(0, Py.UpLine "bye")] w1 in
     App.alive 0 w3 = false
     ∧ App.current_pod (App.state_of "s" w3) = None
     ∧ drop (length (App.trace w1)) (App.trace w3)
       = [App.EvSet "s"; App.ThreadJoin 0; App.QPut "s" "__END__"; App.PodSet "s" None]).
Proof. vm_compute. done. Qed.

(** C7, as stated, fails on appv2.py: "hello" is no timestamp, yet the
    worker strips it from the line "hello world" and forwards "world". *)
Lemma C7_counterexample_prefix_stripped :
  let w1 := run [(0, Resume)] (select_pod "kavosh" "p" [] empty_world).2 in
  let w2 := run [(0, Up (Py.UpLine "hello world"))] w1 in
  Py.timestamp_like "hello" = false
  ∧ log_queue (vars w2) = ["world"]
  ∧ log_queue (vars w2) ≠ ["hello world"].
Proof. vm_compute. done. Qed.

(** C7, amended, on appv2.py.  For a line received in the [for] loop with
    the stop signal clear the worker forwards exactly one item: the text
    after the first space when the line holds a space (whatever stands
    before it is taken for the timestamp), and the whole line when it
    holds none.  No line is dropped. *)
Theorem C7_forwards_text_after_first_space
  (tid : nat) (th : thread) (line : string) (w : world) :
  threads w !! tid = Some th → th_pc th = InFor → stop_event (vars w) = false →
  let queue' := log_queue (vars (streamer_step tid (Up (Py.UpLine line)) w)) in
  (∀ token body, Py.has_space token = false → line = token +:+ " " +:+ body →
                 queue' = log_queue (vars w) ++ [body])
  ∧ (Py.has_space line = false → queue' = log_queue (vars w) ++ [line])
  ∧ ∃ msg, queue' = log_queue (vars w) ++ [msg].
Proof.
  intros Hth Hpc Hs queue'. subst queue'.
  rewrite (streamer_step_line_v2 tid th line w Hth Hpc Hs).
  split; [|split].
  - intros token body Hns ->. unfold parse. by rewrite split1_at_space.
  - intros Hns. unfold parse. by rewrite split1_no_space.
  - eauto.
Qed.

Lemma C7_witness :
  let w1 := run [(0, Resume)] (select_pod "kavosh" "p" [] empty_world).2 in
  log_queue (vars (streamer_step 0 (Up (Py.UpLine "2024-01-01T00:00:00Z hello")) w1))
  = [] ++ ["hello"].
Proof.
  intros w1.
  refine (proj1 (C7_forwards_text_after_first_space 0
            (Thread "p" "kavosh" InFor None None) "2024-01-01T00:00:00Z hello" w1 _ _ _)
          "2024-01-01T00:00:00Z" "hello" _ _); reflexivity.
Defined.

End Claims_AppV2.

Section Claims_Feed.
Import Feed.

(** Once "waiting" is out, one more timed-out poll appends a heartbeat
    when more than the threshold has passed since the last frame, and
    nothing otherwise. *)
Lemma idle_next_poll (v : variant) (pre : list Q) (t : Q) (l : locals) :
  has_yielded_waiting l = true →
  loop v l (idle (pre ++ [t]))
  = loop v l (idle pre)
    ++ (if Qlt_le_dec (heartbeat_after v)
             (t - FeedView.last_emission (last_yield_time l) (loop v l (idle pre)))
        then [Frame Heartbeat t] else []).
Proof.
  revert l. induction pre as [|p pre IH]; intros [last waiting] Hw;
    simpl in Hw; subst waiting; simpl.
  - by destruct (Qlt_le_dec (heartbeat_after v) (t - last)).
  - destruct (Qlt_le_dec (heartbeat_after v) (p - last)); simpl.
    + f_equal. exact (IH (Locals p true) eq_refl).
    + exact (IH (Locals last true) eq_refl).
Qed.

(** C8, on web-log.py, appv2.py and app.py.  A feed whose session has a
    pod selected and whose polls all time out yields the acknowledgement,
    then "waiting" exactly once at the first poll, and after that
    heartbeat frames only, each more than 10 time units after the frame
    before it (web-log.py waits for more than 15).  And heartbeats do
    come: at every later poll the feed yields a heartbeat when more than
    the threshold of the file has passed since its last frame, and
    nothing when not; the threshold is 10 in app.py and appv2.py, and 15
    in web-log.py. *)
Theorem C8_idle_feed_waits_once_then_heartbeats (t0 t1 : Q) (polls : list Q) :
  (∃ rest,
      frames WebLog.generate_variant t0 (idle (t1 :: polls))
      = Frame Connected t0 :: Frame WaitingForLogs t1 :: rest
      ∧ Forall is_heartbeat rest ∧ spaced 10 t1 rest)
  ∧ (∃ rest,
      frames AppV2.generate_variant t0 (idle (t1 :: polls))
      = Frame Connected t0 :: Frame WaitingForLogs t1 :: rest
      ∧ Forall is_heartbeat rest ∧ spaced 10 t1 rest)
  ∧ (∃ rest,
      frames App.generate_variant t0 (idle (t1 :: polls))
      = Frame Connected t0 :: Frame WaitingForLogs t1 :: rest
      ∧ Forall is_heartbeat rest ∧ spaced 10 t1 rest)
  ∧ (∀ (v : variant) (pre : list Q) (t : Q),
       let sofar := frames v t0 (idle (t1 :: pre)) in
       let since := (t - FeedView.last_emission t0 sofar)%Q in
       ((heartbeat_after v < since)%Q →
        frames v t0 (idle (t1 :: pre ++ [t])) = sofar ++ [Frame Heartbeat t])
       ∧ ((since <= heartbeat_after v)%Q →
          frames v t0 (idle (t1 :: pre ++ [t])) = sofar))
  ∧ heartbeat_after App.generate_variant = 10%Q
  ∧ heartbeat_after AppV2.generate_variant = 10%Q
  ∧ heartbeat_after WebLog.generate_variant = 15%Q.
Proof.
  split; [apply idle_frames; simpl; lra|].
  split; [apply idle_frames; simpl; lra|].
  split; [apply idle_frames; simpl; lra|].
  split; [|done].
  intros v pre t sofar since. subst since sofar.
  unfold frames. cbn [idle map app loop iteration negb has_yielded_waiting
                      FeedView.last_emission at_time].
  pose proof (idle_next_poll v pre t (Locals t1 true) eq_refl) as Hnext.
  unfold idle in Hnext. cbn [last_yield_time] in Hnext. rewrite Hnext.
  destruct (Qlt_le_dec _ _) as [Hlt|Hle]; split; intros H.
  - reflexivity.
  - lra.
  - lra.
  - by rewrite app_nil_r.
Qed.

End Claims_Feed.

(** * Further properties of the code *)

(** ** The feed generator, for any observations *)

Section Extras_Feed.
Import Feed FeedView.

Variable v : variant.

Lemma log_lines_app fs1 fs2 : log_lines (fs1 ++ fs2) = log_lines fs1 ++ log_lines fs2.
Proof.
  induction fs1 as [|f fs1 IH]; simpl; [done|]. rewrite IH. by destruct (ev f).
Qed.

Lemma count_app p fs1 fs2 : count p (fs1 ++ fs2) = (count p fs1 + count p fs2)%nat.
Proof.
  induction fs1 as [|f fs1 IH]; simpl; [done|]. rewrite IH. by destruct (p f).
Qed.

Lemma loop_log_lines l obs : log_lines (loop v l obs) = taken obs.
Proof.
  revert l. induction obs as [|o obs IH]; intros l; simpl; [done|].
  destruct o as [|line ty ta|now pod_none]; simpl.
  - done.
  - destruct (String.eqb line Py.END); simpl; [done|]. by rewrite IH.
  - destruct pod_none; simpl; [apply IH|].
    destruct (has_yielded_waiting l); simpl; [|apply IH].
    destruct (Qlt_le_dec _ _); simpl; apply IH.
Qed.

(** X1.  On every connection, whatever the polls observe, the log frames
    carry exactly the lines taken off the queue before the generator
    leaves its loop, in the order in which they were taken: status and
    heartbeat frames never replace, repeat or reorder a line. *)
Theorem X1_feed_delivers_lines_in_order (t0 : Q) (obs : list observation) :
  log_lines (frames v t0 obs) = taken obs.
Proof. unfold frames. simpl. apply loop_log_lines. Qed.

Lemma loop_heartbeats_spaced l obs :
  heartbeats_spaced (heartbeat_after v) (last_yield_time l) (loop v l obs).
Proof.
  revert l. induction obs as [|o obs IH]; intros l; simpl; [done|].
  destruct o as [|line ty ta|now pod_none]; simpl.
  - split; [done|done].
  - destruct (String.eqb line Py.END); simpl; [split; done|].
    split; [done|]. apply (IH (Locals ta _)).
  - destruct pod_none; simpl.
    { split; [done|]. apply (IH (Locals now _)). }
    destruct (has_yielded_waiting l) eqn:Hw; simpl.
    + destruct (Qlt_le_dec _ _) as [Hlt|Hle]; simpl.
      * split; [done|]. apply (IH (Locals now _)).
      * apply IH.
    + split; [done|]. apply (IH (Locals now true)).
Qed.

(** X2.  On every connection, whatever the polls observe, a heartbeat
    frame is yielded only when more than the threshold of the variant has
    passed since the frame before it, of whatever kind that frame is. *)
Theorem X2_heartbeat_only_after_silence (t0 prev : Q) (obs : list observation) :
  heartbeats_spaced (heartbeat_after v) prev (frames v t0 obs).
Proof.
  unfold frames. simpl. split; [done|]. apply (loop_heartbeats_spaced (Locals t0 false)).
Qed.

Lemma loop_ends l obs :
  ∃ body t,
    loop v l obs = body ++ (if leaves obs then [Frame StreamEnded t] else [])
    ∧ count is_ended body = 0%nat.
Proof.
  revert l. induction obs as [|o obs IH]; intros l; simpl.
  - by exists [], 0%Q.
  - destruct o as [|line ty ta|now pod_none]; simpl.
    + by exists [], (last_yield_time l).
    + destruct (String.eqb line Py.END); simpl.
      * by exists [], (last_yield_time l).
      * destruct (IH (Locals ta (if resets_waiting_on_log v then false
                                 else has_yielded_waiting l))) as (body & t & -> & Hc).
        eexists (_ :: body), t. split; [reflexivity|]. simpl. exact Hc.
    + destruct pod_none; simpl.
      { destruct (IH (Locals now (has_yielded_waiting l))) as (body & t & -> & Hc).
        eexists (_ :: body), t. split; [reflexivity|]. simpl. exact Hc. }
      destruct (has_yielded_waiting l) eqn:Hw; simpl.
      * destruct (Qlt_le_dec _ _) as [Hlt|Hle]; simpl.
        -- destruct (IH (Locals now true)) as (body & t & -> & Hc).
           eexists (_ :: body), t. split; [reflexivity|]. simpl. exact Hc.
        -- apply IH.
      * destruct (IH (Locals now true)) as (body & t & -> & Hc).
        eexists (_ :: body), t. split; [reflexivity|]. simpl. exact Hc.
Qed.

(** X3.  The final "stream ended" frame is yielded at most once, as the
    last frame, and exactly when some poll finds the stop signal set or
    takes the sentinel off the queue; until then the connection stays
    open. *)
Theorem X3_stream_ended_once_and_last (t0 : Q) (obs : list observation) :
  ∃ body t,
    frames v t0 obs = body ++ (if leaves obs then [Frame StreamEnded t] else [])
    ∧ count is_ended body = 0%nat.
Proof.
  destruct (loop_ends (Locals t0 false) obs) as (body & t & Hl & Hc).
  exists (Frame Connected t0 :: body), t. unfold frames. rewrite Hl. split; [done|].
  simpl. exact Hc.
Qed.

Lemma loop_waiting_bound l obs :
  (count is_waiting (loop v l obs)
   ≤ (if has_yielded_waiting l then 0 else 1)
     + (if resets_waiting_on_log v then count is_log (loop v l obs) else 0))%nat.
Proof.
  revert l. induction obs as [|o obs IH]; intros l; simpl; [lia|].
  destruct o as [|line ty ta|now pod_none]; simpl.
  - lia.
  - destruct (String.eqb line Py.END); simpl; [lia|].
    specialize (IH (Locals ta (if resets_waiting_on_log v then false
                               else has_yielded_waiting l))).
    simpl in IH. destruct (resets_waiting_on_log v), (has_yielded_waiting l); simpl in *; lia.
  - destruct pod_none; simpl.
    { specialize (IH (Locals now (has_yielded_waiting l))). simpl in IH. exact IH. }
    destruct (has_yielded_waiting l) eqn:Hw; simpl.
    + destruct (Qlt_le_dec _ _) as [Hlt|Hle]; simpl.
      * specialize (IH (Locals now true)). simpl in IH. exact IH.
      * specialize (IH l). rewrite Hw in IH. exact IH.
    + specialize (IH (Locals now true)). simpl in IH. lia.
Qed.

(** X4.  How often a connection says "waiting for logs": at most once
    more than it has delivered log lines where a line resets the flag
    (web-log.py, app.py), and at most once in all where the flag is never
    reset (appv2.py). *)
Theorem X4_waiting_at_most_once_per_silence (t0 : Q) (obs : list observation) :
  (count is_waiting (frames v t0 obs)
   ≤ 1 + (if resets_waiting_on_log v then count is_log (frames v t0 obs) else 0))%nat.
Proof.
  unfold frames. simpl. apply (loop_waiting_bound (Locals t0 false)).
Qed.

Lemma loop_no_pod l (polls : list Q) :
  loop v l (map (λ t, Empty t true) polls) = map (Frame NoPodSelected) polls.
Proof.
  revert l. induction polls as [|t polls IH]; intros l; simpl; [done|]. by rewrite IH.
Qed.

(** X5.  While no pod is selected and the queue is empty, every poll
    yields a "no pod selected" frame: this message is not limited to one
    per connection, nor held back by the heartbeat threshold. *)
Theorem X5_no_pod_selected_on_every_poll (t0 : Q) (polls : list Q) :
  frames v t0 (map (λ t, Empty t true) polls)
  = Frame Connected t0 :: map (Frame NoPodSelected) polls.
Proof. unfold frames. by rewrite loop_no_pod. Qed.

End Extras_Feed.

(** ** app.py: what every run of the program preserves

    A property of the world that each primitive operation preserves is
    preserved by the controller, the workers, the feeds and the terminal,
    and so by every run. *)

Section Extras_Closure.
Import App AppOps.

Variable allowed : list string.
Variable int : string → option Z.
Variable I : world → Prop.

Hypothesis I_put : ∀ sid item w, I w → I (put sid item w).
Hypothesis I_get : ∀ sid w, I w → I (get_nowait sid w).
Hypothesis I_signal : ∀ sid b w, I w → I (set_stop_event sid b w).
Hypothesis I_pod : ∀ sid p w,
  (∀ q, p = Some q → Py.namespace q ∈ allowed) → I w → I (set_current_pod sid p w).
Hypothesis I_handle : ∀ sid t w, I w → I (set_stream_thread sid t w).
Hypothesis I_rpush : ∀ key item w, I w → I (rpush key item w).
Hypothesis I_lpop : ∀ key w, I w → I (lpop key w).
Hypothesis I_delete : ∀ key w, I w → I (delete_key key w).
Hypothesis I_log : ∀ e w, passive allowed e → I w → I (log e w).
Hypothesis I_new : ∀ sid pod_name namespace w,
  namespace ∈ allowed → I w → I (new_thread sid pod_name namespace w).2.
Hypothesis I_start : ∀ tid w, I w → I (start tid w).
Hypothesis I_exit : ∀ tid w, I w → I (exit_thread tid w).
Hypothesis I_create : ∀ sid w, I w → I (_get_or_create_state sid w).

Lemma closed_drain n sid w : I w → I (drain n sid w).
Proof.
  revert w. induction n as [|n IH]; intros w Hw; simpl; [done|].
  destruct (log_queue (state_of sid w)); [done|]. apply IH. by apply I_get.
Qed.

Lemma closed_puts sid items w : I w → I (foldl (λ w log, put sid log w) w items).
Proof.
  revert w. induction items as [|x items IH]; intros w Hw; simpl; [done|].
  apply IH. by apply I_put.
Qed.

Lemma closed_finally tid sid w : I w → I (streamer_finally tid sid w).
Proof.
  intros Hw. unfold streamer_finally. apply I_exit, I_pod; [done|]. by apply I_put.
Qed.

Lemma closed_step tid u w : I w → I (streamer_step tid u w).
Proof.
  intros Hw. unfold streamer_step. destruct (threads w !! tid) as [th|]; [|done].
  destruct (negb (is_alive th)); [done|]. cbv zeta. destruct u as [line|e|].
  - destruct (stop_event _); [by apply closed_finally|].
    destruct (1000 <? _)%nat; [apply I_lpop|]; by apply I_rpush, I_put.
  - by apply closed_finally, I_rpush, I_put.
  - by apply closed_finally.
Qed.

Lemma closed_run sched w : I w → I (run sched w).
Proof.
  revert w. induction sched as [|[tid u] sched IH]; intros w Hw; simpl; [done|].
  by apply IH, closed_step.
Qed.

Lemma closed_stop sid sched w : I w → I (stop_log_streaming sid sched w).
Proof.
  intros Hw. unfold stop_log_streaming. cbv zeta.
  destruct (stream_thread _) as [tid|]; [|by apply I_signal].
  destruct (alive tid _); [|by apply I_signal].
  apply I_handle, closed_run, I_log; [done|]. by apply I_signal.
Qed.

Lemma closed_start pod_name namespace sid w :
  I w → I (start_log_streaming allowed pod_name namespace sid w).
Proof.
  intros Hw. unfold start_log_streaming. case_decide as Hd; [done|].
  assert (Hin : namespace ∈ allowed) by (by destruct (decide (namespace ∈ allowed))).
  cbv zeta.
  set (w1 := delete_key _ _).
  assert (H1 : I w1).
  { apply I_delete, closed_drain, I_signal, I_pod; [|done]. by intros q [= <-]. }
  pose proof (I_new sid pod_name namespace w1 Hin H1) as H2.
  destruct (new_thread sid pod_name namespace w1) as [tid w2]. simpl in H2.
  by apply I_start, I_handle.
Qed.

Lemma closed_select namespace pod_name sid sched w :
  I w → I (select_pod allowed namespace pod_name sid sched w).2.
Proof.
  intros Hw. unfold select_pod. case_decide; simpl; [by apply I_create|].
  apply closed_start, closed_puts, I_log; [done|]. by apply closed_stop, I_create.
Qed.

Lemma closed_list_pods namespace k w : I w → I (list_pods allowed namespace k w).2.
Proof.
  intros Hw. unfold list_pods.
  destruct namespace as [ns|].
  - destruct (String.eqb ns EmptyString).
    + destruct (list_pod_for_all_namespaces k); simpl; by apply I_log.
    + case_decide as Hd; [done|].
      assert (Hin : ns ∈ allowed) by (by destruct (decide (ns ∈ allowed))).
      destruct (list_namespaced_pod k ns); simpl; by apply I_log.
  - destruct (list_pod_for_all_namespaces k); simpl; by apply I_log.
Qed.

Lemma closed_poll sid t_yield t_after w : I w → I (poll sid t_yield t_after w).2.
Proof.
  intros Hw. unfold poll. destruct (stop_event _); [done|].
  destruct (log_queue (state_of sid w)) eqn:E; [done|]. simpl. by apply I_get.
Qed.

Lemma closed_wait_loop sid waits w : I w → I (wait_loop sid waits w).
Proof.
  revert w. induction waits as [|[sched input] waits IH]; intros w Hw; simpl; [done|].
  destruct (streaming sid w); [|done].
  destruct input as [line|]; [destruct (String.eqb line "q")|];
    try apply IH; by apply closed_run.
Qed.

Lemma closed_stream_pod_logs pod_name namespace sid j1 waits j2 j3 w :
  I w → I (stream_pod_logs allowed pod_name namespace sid j1 waits j2 j3 w).
Proof.
  intros Hw. unfold stream_pod_logs. case_decide; [done|].
  apply closed_run, closed_stop, I_signal, closed_wait_loop, closed_start.
  by apply closed_stop.
Qed.

Lemma closed_main_turn cur t w : I w → I (main_turn allowed int cur t w).2.
Proof.
  intros Hw. unfold main_turn.
  pose proof (closed_list_pods cur (cluster_now t) w Hw) as Hl.
  destruct (list_pods allowed cur (cluster_now t) w) as [pods w1]. simpl in Hl.
  destruct (typed t) as [choice|]; [|done].
  destruct (dispatch allowed int pods choice); simpl; try done.
  - by apply closed_stream_pod_logs, I_create.
  - by destruct (enter_pressed t).
  - by destruct (enter_pressed t).
Qed.

Lemma closed_exec w o : I w → I (exec allowed int w o).
Proof.
  intros Hw. destruct o; simpl.
  - by apply closed_select.
  - unfold get_pods_in_namespace. case_decide; [done|].
    pose proof (closed_list_pods (Some namespace) k w Hw) as Hl.
    by destruct (list_pods allowed (Some namespace) k w).
  - unfold get_namespaces. destruct (list_namespace k); simpl; by apply I_log.
  - by apply I_create.
  - by apply closed_poll.
  - by apply closed_step.
  - by apply closed_main_turn.
Qed.

Lemma closed_execute ops w : I w → I (execute allowed int ops w).
Proof.
  unfold execute. revert w. induction ops as [|o ops IH]; intros w Hw; simpl; [done|].
  by apply IH, closed_exec.
Qed.

Lemma closed_main_loop cur turns w : I w → I (main_loop allowed int cur turns w).2.
Proof.
  revert cur w. induction turns as [|t turns IH]; intros cur w Hw; simpl; [done|].
  pose proof (closed_main_turn cur t w Hw) as Ht.
  destruct (main_turn allowed int cur t w) as [[cur'|] w1]; simpl in *; [by apply IH|done].
Qed.

Lemma closed_observe sid passes w : I w → I (observe sid passes w).2.
Proof.
  revert w. induction passes as [|[sched [ty ta]] passes IH]; intros w Hw; simpl; [done|].
  pose proof (closed_poll sid ty ta (run sched w) (closed_run sched w Hw)) as Hp.
  destruct (poll sid ty ta (run sched w)) as [o w1]. simpl in Hp.
  destruct o as [|line ? ?|? ?]; simpl; [done| |].
  - destruct (String.eqb line Py.END); [done|].
    specialize (IH w1 Hp). by destruct (observe sid passes w1).
  - specialize (IH w1 Hp). by destruct (observe sid passes w1).
Qed.

End Extras_Closure.

(** ** app.py: the allow-list, over every run *)

Section Extras_AllowList.
Import App AppOps.

Variable allowed : list string.
Variable int : string → option Z.

Lemma within_log e w :
  permitted allowed e → within_allow_list allowed w → within_allow_list allowed (log e w).
Proof.
  intros He (Ht & Hth & Hp). split; [|split].
  - simpl. apply Forall_app. split; [done|]. by constructor.
  - done.
  - done.
Qed.

(** A change to one bundle that keeps its pod reference, or sets it to a
    pod of an allowed namespace. *)
Lemma within_update sid f w :
  (∀ s p, current_pod (f s) = Some p →
          current_pod s = Some p ∨ Py.namespace p ∈ allowed) →
  within_allow_list allowed w → within_allow_list allowed (update sid f w).
Proof.
  intros Hf (Ht & Hth & Hp). split; [done|]. split; [done|].
  intros sid' p. rewrite state_of_update. case_decide as Hd; [|apply Hp].
  intros Hc. destruct (Hf _ _ Hc) as [Hold|Hnew]; [|done]. by eapply Hp.
Qed.

Lemma within_redis f w :
  within_allow_list allowed w → within_allow_list allowed (with_redis f w).
Proof. by intros (Ht & Hth & Hp). Qed.

Lemma within_passive e : passive allowed e → permitted allowed e.
Proof. by destruct e. Qed.

Lemma within_empty : within_allow_list allowed empty_world.
Proof.
  split; [constructor|]. split; [constructor|].
  intros sid p. unfold state_of, empty_world. simpl. by rewrite lookup_empty.
Qed.

Lemma within_threads_insert tid th w :
  th_namespace th ∈ allowed →
  Forall (λ th, th_namespace th ∈ allowed) (threads w) →
  Forall (λ th, th_namespace th ∈ allowed) (<[tid := th]> (threads w)).
Proof.
  intros Hns Hall. apply Forall_forall. intros x Hx.
  apply list_elem_of_lookup in Hx as [i Hi].
  destruct (decide (tid = i)) as [<-|Hne].
  - destruct (decide (tid < length (threads w))%nat) as [Hlt|Hge].
    + rewrite list_lookup_insert_eq in Hi by done. by injection Hi as <-.
    + rewrite list_insert_ge in Hi by lia. by eapply (Forall_lookup_1 _ _ _ _ Hall).
  - rewrite list_lookup_insert_ne in Hi by done. by eapply (Forall_lookup_1 _ _ _ _ Hall).
Qed.

(** X6.  Whatever the web clients, the feeds, the workers and the terminal
    do, in whatever order, every follow request app.py sends the cluster
    and every per-namespace pod listing ([list_namespaced_pod]) names a
    namespace of the allow-list; every worker it starts is bound to an
    allowed namespace, and so is the pod selected in every session.  The
    two cluster-wide requests, [list_namespace] and
    [list_pod_for_all_namespaces], name no namespace and are not
    restricted: app.py does send them, and filters their answers
    afterwards. *)
Theorem X6_runs_stay_within_allow_list (ops : list op) :
  within_allow_list allowed (execute allowed int ops empty_world).
Proof.
  apply closed_execute; [..|apply within_empty].
  - intros sid item w Hw. apply within_log; [done|]. apply within_update; [|done].
    intros s p. simpl. auto.
  - intros sid w Hw. unfold get_nowait. destruct (log_queue _) as [|item rest]; [done|].
    apply within_log; [done|]. apply within_update; [|done]. intros s p. simpl. auto.
  - intros sid b w Hw. apply within_log; [by destruct b|]. apply within_update; [|done].
    intros s p. simpl. auto.
  - intros sid p w Hp Hw. apply within_log; [done|]. apply within_update; [|done].
    intros s q. simpl. intros ->. right. by apply Hp.
  - intros sid t w Hw. apply within_update; [|done]. intros s p. simpl. auto.
  - intros key item w Hw. apply within_log; [done|]. by apply within_redis.
  - intros key w Hw. apply within_log; [done|]. by apply within_redis.
  - intros key w Hw. apply within_log; [done|]. by apply within_redis.
  - intros e w He Hw. apply within_log; [by apply within_passive|done].
  - intros sid pod_name namespace w Hin (Ht & Hth & Hp). split; [done|]. split; [|done].
    simpl. apply Forall_app. split; [done|]. by constructor.
  - intros tid w (Ht & Hth & Hp). unfold start.
    destruct (threads w !! tid) as [th|] eqn:E; [|done].
    assert (Hns : th_namespace th ∈ allowed)
      by (by eapply (Forall_lookup_1 _ _ _ _ Hth)).
    apply within_log; [done|]. apply within_log; [done|].
    split; [done|]. split; [|done]. simpl. by apply within_threads_insert.
  - intros tid w (Ht & Hth & Hp). unfold exit_thread.
    destruct (threads w !! tid) as [th|] eqn:E; [|done].
    assert (Hns : th_namespace th ∈ allowed)
      by (by eapply (Forall_lookup_1 _ _ _ _ Hth)).
    split; [done|]. split; [|done]. simpl. by apply within_threads_insert.
  - intros sid w (Ht & Hth & Hp). split; [|split].
    + unfold _get_or_create_state. by destruct (sessions w !! sid).
    + by rewrite threads_get_or_create.
    + intros sid' p. unfold _get_or_create_state.
      destruct (sessions w !! sid) eqn:E; [apply Hp|].
      unfold state_of. simpl. destruct (decide (sid = sid')) as [<-|Hne].
      * by rewrite lookup_insert_eq.
      * rewrite lookup_insert_ne by done. apply Hp.
Qed.

End Extras_AllowList.

(** ** app.py: sessions do not disturb each other *)

Section Extras_Isolation.
Import App AppOps.

Variable allowed : list string.

Lemma streamer_step_frame tid u w th :
  threads w !! tid = Some th →
  (∀ sid', sid' ≠ th_session th →
           state_of sid' (streamer_step tid u w) = state_of sid' w)
  ∧ (∀ key', key' ≠ Py.cache_key (th_namespace th) (th_pod_name th) →
             Redis.entry key' (redis_client (streamer_step tid u w))
             = Redis.entry key' (redis_client w)).
Proof.
  intros Hth. destruct (is_alive th) eqn:Hal.
  2:{ rewrite streamer_step_not_alive; [done|]. unfold alive. by rewrite Hth. }
  assert (Hfin : ∀ w1, threads w1 !! tid = Some th →
            (∀ sid', sid' ≠ th_session th →
               state_of sid' (streamer_finally tid (th_session th) w1) = state_of sid' w1)
            ∧ redis_client (streamer_finally tid (th_session th) w1) = redis_client w1).
  { intros w1 H1. by destruct (streamer_finally_spec tid th w1 H1) as (_ & Ho & Hr & _). }
  destruct u as [line|e|].
  - destruct (stop_event (state_of (th_session th) w)) eqn:Hs.
    + erewrite streamer_step_finally by eauto. destruct (Hfin w Hth) as [Ho ->]. done.
    + by destruct (streamer_step_line tid th line w Hth Hal Hs) as (_ & Ho & _ & _ & Hk & _).
  - rewrite (streamer_step_error tid th e w Hth Hal).
    set (w1 := rpush _ _ _). destruct (Hfin w1 Hth) as [Ho ->]. split.
    + intros sid' Hne. rewrite (Ho sid' Hne). subst w1.
      rewrite state_of_rpush, state_of_put. by case_decide.
    + intros key' Hne. subst w1. simpl. by rewrite entry_rpush_ne.
  - erewrite streamer_step_finally by eauto. destruct (Hfin w Hth) as [Ho ->]. done.
Qed.

(** X8.  A worker writes only to the bundle of the session that started it
    and only to the cache entry of its own pod: a step of it leaves the
    bundle of every other session and every other cache entry as they
    are, and it never touches a stop signal or a worker handle, its own
    session's included. *)
Theorem X8_worker_writes_own_session_and_entry
  (tid : nat) (u : Py.upstream) (w : world) (th : thread) :
  threads w !! tid = Some th →
  let w' := streamer_step tid u w in
  (∀ sid, sid ≠ th_session th → state_of sid w' = state_of sid w)
  ∧ (∀ key, key ≠ Py.cache_key (th_namespace th) (th_pod_name th) →
            Redis.entry key (redis_client w') = Redis.entry key (redis_client w))
  ∧ (∀ sid, stop_event (state_of sid w') = stop_event (state_of sid w)
            ∧ stream_thread (state_of sid w') = stream_thread (state_of sid w)).
Proof.
  intros Hth w'. destruct (streamer_step_frame tid u w th Hth) as [H1 H2].
  split; [done|]. split; [done|]. intros sid. apply streamer_step_signals.
Qed.

Lemma X8_witness :
  let w := (select_pod ["kavosh"] "kavosh" "p" "s" []
              (_get_or_create_state "t" empty_world)).2 in
  state_of "t" (streamer_step 0 (Py.UpLine "x") w) = state_of "t" w.
Proof.
  intros w.
  refine (proj1 (X8_worker_writes_own_session_and_entry 0 (Py.UpLine "x") w
                   (Thread "s" "p" "kavosh" true) _) "t" _).
  - reflexivity.
  - discriminate.
Defined.

Lemma foreign_step sid sched tid u w :
  foreign sid sched w → foreign sid sched (streamer_step tid u w).
Proof.
  intros Hf t u0 th' Hin Hth'.
  destruct (streamer_step_lookup _ _ _ _ _ Hth') as (th & Hth & Hs & _).
  rewrite <- Hs. by eapply Hf.
Qed.

Lemma foreign_cons sid step sched w : foreign sid (step :: sched) w → foreign sid sched w.
Proof. intros Hf t u th Hin Hth. eapply (Hf t u th); [by right|exact Hth]. Qed.

Lemma run_foreign sid sched w :
  foreign sid sched w → state_of sid (run sched w) = state_of sid w.
Proof.
  revert w. induction sched as [|[tid u] sched IH]; intros w Hf; simpl; [done|].
  rewrite IH by (by apply foreign_step, (foreign_cons sid (tid, u))).
  destruct (threads w !! tid) as [th|] eqn:Hth.
  - apply (proj1 (streamer_step_frame tid u w th Hth)). intros Heq.
    eapply (Hf tid u th); [left|exact Hth|done].
  - unfold streamer_step. by rewrite Hth.
Qed.

Lemma drain_other n sid sid' w :
  sid ≠ sid' → state_of sid' (drain n sid w) = state_of sid' w.
Proof.
  intros Hne. revert w. induction n as [|n IH]; intros w; simpl; [done|].
  destruct (log_queue (state_of sid w)) eqn:E; [done|].
  rewrite IH, state_of_get_nowait. by case_decide.
Qed.

Lemma puts_other sid sid' items w :
  sid ≠ sid' → state_of sid' (foldl (λ w log, put sid log w) w items) = state_of sid' w.
Proof.
  intros Hne. revert w. induction items as [|x items IH]; intros w; simpl; [done|].
  rewrite IH, state_of_put. by case_decide.
Qed.

Lemma state_of_start sid tid w : state_of sid (start tid w) = state_of sid w.
Proof. unfold start. by destruct (threads w !! tid). Qed.

Lemma stop_log_streaming_other sid sid' sched w :
  sid ≠ sid' → foreign sid' sched w →
  state_of sid' (stop_log_streaming sid sched w) = state_of sid' w.
Proof.
  intros Hne Hf.
  destruct (stop_log_streaming_cases sid sched w) as [(tid & _ & _ & ->)|[_ ->]].
  - rewrite state_of_set_stream_thread. case_decide; [done|].
    rewrite run_foreign by exact Hf.
    rewrite state_of_log, state_of_set_stop_event. by case_decide.
  - rewrite state_of_set_stop_event. by case_decide.
Qed.

Lemma start_log_streaming_other pod_name namespace sid sid' w :
  sid ≠ sid' →
  state_of sid' (start_log_streaming allowed pod_name namespace sid w) = state_of sid' w.
Proof.
  intros Hne. unfold start_log_streaming. case_decide; [done|]. cbv zeta.
  unfold new_thread. rewrite state_of_start, state_of_set_stream_thread.
  case_decide; [done|].
  change (state_of sid' (World (sessions ?x) ?r ?t ?tr)) with (state_of sid' x).
  rewrite state_of_delete_key. unfold clear_queue. rewrite drain_other by done.
  rewrite state_of_set_stop_event. case_decide; [done|].
  rewrite state_of_set_current_pod. by case_decide.
Qed.

Lemma state_of_get_or_create_any sid sid' w :
  state_of sid' (_get_or_create_state sid w) = state_of sid' w.
Proof.
  destruct (decide (sid = sid')) as [->|Hne]; [apply state_of_get_or_create|].
  unfold _get_or_create_state. destruct (sessions w !! sid); [done|].
  unfold state_of. simpl. by rewrite lookup_insert_ne.
Qed.

(** X9.  Selecting a pod, or stopping the stream, in one session leaves
    the bundle of every other session as it is (queue, pod reference,
    stop signal and handle), provided no worker of that other session
    takes a step during the join. *)
Theorem X9_controller_leaves_other_sessions
  (namespace pod_name sid sid' : string) (sched : schedule) (w : world) :
  sid ≠ sid' → foreign sid' sched w →
  state_of sid' (select_pod allowed namespace pod_name sid sched w).2 = state_of sid' w
  ∧ state_of sid' (stop_log_streaming sid sched w) = state_of sid' w.
Proof.
  intros Hne Hf. split; [|by apply stop_log_streaming_other].
  unfold select_pod. case_decide; simpl; [apply state_of_get_or_create_any|].
  rewrite start_log_streaming_other by done. rewrite puts_other by done.
  rewrite state_of_log, stop_log_streaming_other; [apply state_of_get_or_create_any|done|].
  intros t u th Hin Hth. rewrite threads_get_or_create in Hth. by eapply Hf.
Qed.

End Extras_Isolation.

(** ** app.py: a feed on the queue of its session *)

Section Extras_Drain.
Import App AppOps.

Lemma foreign_run sid sched sched' w :
  foreign sid sched w → foreign sid sched (run sched' w).
Proof.
  revert w. induction sched' as [|[tid u] sched' IH]; intros w Hf; simpl; [done|].
  by apply IH, foreign_step.
Qed.

Lemma threads_get_nowait sid w : threads (get_nowait sid w) = threads w.
Proof. unfold get_nowait. by destruct (log_queue (state_of sid w)). Qed.

Lemma foreign_get_nowait sid sid' sched w :
  foreign sid sched w → foreign sid sched (get_nowait sid' w).
Proof. unfold foreign. by rewrite threads_get_nowait. Qed.

(** A pass that finds the stop signal clear and an item at the head of the
    queue takes that item. *)
Lemma poll_takes sid item q ty ta w :
  stop_event (state_of sid w) = false → log_queue (state_of sid w) = item :: q →
  poll sid ty ta w = (Feed.Got item ty ta, get_nowait sid w)
  ∧ stop_event (state_of sid (get_nowait sid w)) = false
  ∧ log_queue (state_of sid (get_nowait sid w)) = q.
Proof.
  intros Hs Hq. unfold poll. rewrite Hs, Hq. split; [done|].
  rewrite state_of_get_nowait. case_decide; [|done]. simpl. by rewrite Hq.
Qed.

Lemma observe_drains sid lines rest passes w :
  stop_event (state_of sid w) = false →
  log_queue (state_of sid w) = lines ++ Py.END :: rest →
  Forall (λ x, x ≠ Py.END) lines →
  (length lines < length passes)%nat →
  Forall (λ p : pass, foreign sid p.1 w) passes →
  let r := observe sid passes w in
  FeedView.taken r.1 = lines ∧ FeedView.leaves r.1 = true
  ∧ log_queue (state_of sid r.2) = rest.
Proof.
  cbv zeta. revert passes w.
  induction lines as [|l lines IH]; intros passes w Hs Hq Hne Hlen Hf;
    destruct passes as [|[sched [ty ta]] passes]; simpl in Hlen; try lia.
  - apply Forall_cons in Hf as [Hf0 Hf]. simpl in Hf0. simpl.
    destruct (poll_takes sid Py.END rest ty ta (run sched w)) as (-> & _ & Hq').
    { by rewrite run_foreign. }
    { by rewrite run_foreign. }
    done.
  - apply Forall_cons in Hf as [Hf0 Hf]. simpl in Hf0.
    apply Forall_cons in Hne as [Hl Hne]. simpl.
    destruct (poll_takes sid l (lines ++ Py.END :: rest) ty ta (run sched w))
      as (-> & Hs' & Hq').
    { by rewrite run_foreign. }
    { by rewrite run_foreign. }
    assert (El : String.eqb l Py.END = false) by (by apply String.eqb_neq).
    rewrite El.
    destruct (IH passes (get_nowait sid (run sched w))) as (H1 & H2 & H3);
      [done|done|done|lia| |].
    { eapply Forall_impl; [exact Hf|]. intros p Hp. simpl.
      by apply foreign_get_nowait, foreign_run. }
    destruct (observe sid passes (get_nowait sid (run sched w))) as [obs w'].
    simpl in *. rewrite El. by rewrite H1.
Qed.

Lemma logs_drains
  (sid : string) (t0 : Q) (lines rest : list string) (passes : list pass) (w : world) :
  stop_event (state_of sid w) = false →
  log_queue (state_of sid w) = lines ++ Py.END :: rest →
  Forall (λ x, x ≠ Py.END) lines →
  (length lines < length passes)%nat →
  Forall (λ p : pass, foreign sid p.1 w) passes →
  let r := logs sid t0 passes w in
  FeedView.log_lines r.1 = lines
  ∧ (∃ body t, r.1 = body ++ [Feed.Frame Feed.StreamEnded t])
  ∧ log_queue (state_of sid r.2) = rest.
Proof.
  intros Hs Hq Hne Hlen Hf r. subst r. unfold logs.
  destruct (observe_drains sid lines rest passes (_get_or_create_state sid w))
    as (H1 & H2 & H3).
  - by rewrite state_of_get_or_create.
  - by rewrite state_of_get_or_create.
  - done.
  - done.
  - eapply Forall_impl; [exact Hf|]. intros p Hp. unfold foreign.
    by rewrite threads_get_or_create.
  - destruct (observe sid passes (_get_or_create_state sid w)) as [obs w']. simpl in *.
    split; [|split; [|done]].
    + unfold Feed.frames. simpl. by rewrite loop_log_lines.
    + destruct (loop_ends generate_variant (Feed.Locals t0 false) obs) as (body & t & Hl & _).
      rewrite H2 in Hl. exists (Feed.Frame Feed.Connected t0 :: body), t.
      unfold Feed.frames. by rewrite Hl.
Qed.

(** X10.  A session's queue holds some lines, then the sentinel, then
    whatever else; its stop signal is clear and no worker of the session
    runs meanwhile.  A feed that gets enough passes delivers exactly the
    lines before the first sentinel, in order, ends with the "stream
    ended" frame, and leaves on the queue what followed the sentinel (a
    log line that reads [__END__] ends the feed like the sentinel). *)
Theorem X10_feed_drains_up_to_first_sentinel
  (sid : string) (t0 : Q) (lines rest : list string) (passes : list pass) (w : world) :
  stop_event (state_of sid w) = false →
  log_queue (state_of sid w) = lines ++ Py.END :: rest →
  Forall (λ x, x ≠ Py.END) lines →
  (length lines < length passes)%nat →
  Forall (λ p : pass, foreign sid p.1 w) passes →
  let r := logs sid t0 passes w in
  FeedView.log_lines r.1 = lines
  ∧ (∃ body t, r.1 = body ++ [Feed.Frame Feed.StreamEnded t])
  ∧ log_queue (state_of sid r.2) = rest.
Proof. apply logs_drains. Qed.

Lemma X10_witness :
  let w := run [(0, Py.UpLine "a"); (0, Py.UpEnd)]
             (select_pod ["kavosh"] "kavosh" "p" "s" [] empty_world).2 in
  let passes : list pass := [([], (1%Q, 1%Q)); ([], (2%Q, 2%Q))] in
  FeedView.log_lines (logs "s" 0 passes w).1 = ["a"].
Proof.
  intros w passes.
  refine (proj1 (X10_feed_drains_up_to_first_sentinel "s" 0 ["a"] [] passes w _ _ _ _ _)).
  - reflexivity.
  - reflexivity.
  - repeat constructor. discriminate.
  - simpl. lia.
  - repeat constructor; intros tid u th Hin; by apply elem_of_nil in Hin.
Defined.

End Extras_Drain.

(** ** app.py: selection, the cache window, and the terminal *)

Section Extras_App.
Import App AppOps.

(** X22.  When the join of [stop] succeeds, single flight holds: every
    running worker of the session is the one behind the handle, and its
    upstream delivers something during the join; then the worker sees the
    stop signal and returns before the next selection clears it, and
    after [stop] then [select] at most one worker of the session is
    running; it is again the one behind the handle. *)
Theorem X22_single_flight_when_join_succeeds
  (allowed : list string) (sid namespace pod_name : string) (s1 s2 : schedule) (w : world) :
  (∀ tid th, threads w !! tid = Some th → th_session th = sid → is_alive th = true →
             stream_thread (state_of sid w) = Some tid ∧ ∃ u, (tid, u) ∈ s1) →
  let w' := (select_pod allowed namespace pod_name sid s2 (stop_log_streaming sid s1 w)).2 in
  (length (active_workers sid w') ≤ 1)%nat
  ∧ ∀ tid th, threads w' !! tid = Some th → th_session th = sid → is_alive th = true →
              stream_thread (state_of sid w') = Some tid.
Proof.
  intros Hyp w'. subst w'.
  assert (Hq : quiet sid (stop_log_streaming sid s1 w)).
  { destruct (stop_log_streaming_cases sid s1 w) as [(tid & Hh & Hal & ->)|[Hno ->]].
    - change (quiet sid (run s1 (log (ThreadJoin tid) (set_stop_event sid true w)))).
      set (w0 := log (ThreadJoin tid) (set_stop_event sid true w)).
      assert (Ho : only sid tid w0).
      { intros tid' th Hth Hs Ha. destruct (Hyp tid' th Hth Hs Ha) as [Hh' _]. congruence. }
      assert (Hs0 : stop_event (state_of sid w0) = true).
      { subst w0. rewrite state_of_log, state_of_set_stop_event. by case_decide. }
      apply alive_true in Hal as (th & Hth & Hal).
      destruct (decide (th_session th = sid)) as [Hs|Hs].
      + apply (run_quiet sid tid); [done|done|]. by destruct (Hyp tid th Hth Hs Hal).
      + apply quiet_run. intros tid' th' Hth' Hs' .
        destruct (is_alive th') eqn:Ha; [|done].
        assert (tid' = tid) as -> by (eapply Ho; eauto).
        change (threads w !! tid = Some th') in Hth'. congruence.
    - intros tid th Hth Hs. destruct (is_alive th) eqn:Ha; [|done].
      destruct (Hyp tid th Hth Hs Ha) as [Hh _].
      assert (alive tid w = true) by (apply alive_true; eauto).
      rewrite (Hno tid Hh) in *. done. }
  set (w1 := stop_log_streaming sid s1 w) in *.
  destruct (decide (namespace ∈ allowed)) as [Hin|Hout].
  - destruct (select_pod_accepted allowed namespace pod_name sid s2 w1 Hin)
      as (_ & Hst & _ & Hth & _).
    assert (Hq2 : quiet sid (stop_log_streaming sid s2 (_get_or_create_state sid w1))).
    { apply stop_log_streaming_quiet. by apply quiet_get_or_create. }
    split.
    + unfold active_workers. rewrite Hth, filter_app, length_app.
      apply quiet_active_workers in Hq2. unfold active_workers in Hq2. rewrite Hq2.
      simpl. rewrite filter_cons, filter_nil. case_decide; simpl; lia.
    + intros tid th Hlook Hs Ha. rewrite Hst. simpl. f_equal.
      rewrite Hth in Hlook. apply lookup_app_Some in Hlook as [Hold|[Hge Hnew]].
      * rewrite (Hq2 tid th Hold Hs) in Ha. done.
      * apply list_lookup_singleton_Some in Hnew as [Hz _]. lia.
  - rewrite select_pod_rejected by done. simpl.
    assert (Hq2 : quiet sid (_get_or_create_state sid w1)) by (by apply quiet_get_or_create).
    split.
    + rewrite quiet_active_workers; [simpl; lia|done].
    + intros tid th Hlook Hs Ha. rewrite (Hq2 tid th Hlook Hs) in Ha. done.
Qed.

Lemma X22_witness :
  let allowed := ["kavosh"; "secure"; "bizagi"] in
  let w1 := (select_pod allowed "kavosh" "a" "s" [] empty_world).2 in
  let s1 := [(0, Py.UpLine "a1")] in
  (length (active_workers "s"
     (select_pod allowed "kavosh" "b" "s" [] (stop_log_streaming "s" s1 w1)).2) ≤ 1)%nat.
Proof.
  intros allowed w1 s1.
  apply (X22_single_flight_when_join_succeeds allowed "s" "kavosh" "b" s1 [] w1).
  intros tid th Hth Hs Ha.
  destruct tid as [|[|tid]]; vm_compute in Hth; [|done|done].
  split; [reflexivity|]. exists (Py.UpLine "a1"). left.
Defined.

Lemma X9_witness :
  let w := (select_pod ["kavosh"] "kavosh" "p" "t" [] empty_world).2 in
  state_of "t" (select_pod ["kavosh"] "kavosh" "q" "s" [] w).2 = state_of "t" w.
Proof.
  intros w.
  refine (proj1 (X9_controller_leaves_other_sessions ["kavosh"] "kavosh" "q" "s" "t" [] w _ _)).
  - discriminate.
  - intros tid u th Hin. by apply elem_of_nil in Hin.
Defined.

(** X11.  An accepted selection resets the bundle of the session, whatever
    it held before: on return its queue is empty, its stop signal is
    clear, its pod reference names the selected pod, and its handle
    points to a worker that has just been started for this session and
    this pod. *)
Theorem X11_accepted_selection_resets_bundle
  (allowed : list string) (namespace pod_name sid : string) (sched : schedule) (w : world) :
  namespace ∈ allowed →
  let r := select_pod allowed namespace pod_name sid sched w in
  r.1 = Text 200 "OK"
  ∧ ∃ tid,
      state_of sid r.2 = State (Some (PodRef pod_name namespace)) [] false (Some tid)
      ∧ threads r.2 !! tid = Some (Thread sid pod_name namespace true)
      ∧ length (threads r.2) = S tid.
Proof.
  intros Hin r. subst r.
  destruct (select_pod_accepted allowed namespace pod_name sid sched w Hin)
    as (H1 & H2 & _ & H4 & _).
  split; [done|]. eexists. split; [exact H2|]. rewrite H4. split.
  - rewrite lookup_app_r by done. by rewrite Nat.sub_diag.
  - rewrite length_app. simpl. lia.
Qed.

Lemma X11_witness :
  (select_pod ["kavosh"; "secure"] "secure" "p" "s" [] empty_world).1 = Text 200 "OK".
Proof.
  refine (proj1 (X11_accepted_selection_resets_bundle ["kavosh"; "secure"]
                   "secure" "p" "s" [] empty_world _)).
  right. left.
Defined.

Lemma run_lines_cache tid th lines w :
  threads w !! tid = Some th → is_alive th = true →
  stop_event (state_of (th_session th) w) = false →
  let key := Py.cache_key (th_namespace th) (th_pod_name th) in
  let old := Redis.entry key (redis_client w) in
  (length old ≤ 1000)%nat →
  Redis.entry key (redis_client (run (map (λ l, (tid, Py.UpLine l)) lines) w))
  = drop (length (old ++ lines) - 1000) (old ++ lines).
Proof.
  intros Hth Hal Hs key. cbv zeta. revert w Hth Hs.
  induction lines as [|l lines IH]; intros w Hth Hs Hlen.
  - rewrite app_nil_r. replace (length _ - 1000)%nat with 0%nat by lia. done.
  - change (run (map _ (l :: lines)) w)
      with (run (map (λ l, (tid, Py.UpLine l)) lines) (streamer_step tid (Py.UpLine l) w)).
    destruct (cache_capped_on_lines tid th l w Hth Hal Hs Hlen) as [He Hle].
    destruct (streamer_step_line tid th l w Hth Hal Hs) as (Hst & _ & Hthr & _).
    fold key in He, Hle.
    rewrite IH; [|by rewrite Hthr|by rewrite Hst|exact Hle].
    rewrite He. set (old := Redis.entry key (redis_client w)) in *.
    case_decide as Hd.
    + destruct old as [|x old']; [simpl in Hd; lia|].
      cbn [tail]. rewrite <- !app_assoc. cbn [app].
      assert (Hn : (length (x :: old' ++ l :: lines) - 1000
                    = S (length (old' ++ l :: lines) - 1000))%nat).
      { cbn [length] in *. rewrite !length_app in *. cbn [length] in *. lia. }
      rewrite Hn. done.
    + rewrite <- !app_assoc. done.
Qed.

(** X12.  While a worker receives lines with the stop signal clear, and
    nobody else writes to the entry, the cache entry of its pod is the
    trailing window of what it held plus the lines received: all of it up
    to 1000 lines, and the last 1000 beyond that, in order. *)
Theorem X12_cache_keeps_last_1000_lines
  (tid : nat) (th : thread) (lines : list string) (w : world) :
  threads w !! tid = Some th → is_alive th = true →
  stop_event (state_of (th_session th) w) = false →
  let key := Py.cache_key (th_namespace th) (th_pod_name th) in
  let old := Redis.entry key (redis_client w) in
  (length old ≤ 1000)%nat →
  let w' := run (map (λ l, (tid, Py.UpLine l)) lines) w in
  Redis.entry key (redis_client w') = drop (length (old ++ lines) - 1000) (old ++ lines)
  ∧ (length (Redis.entry key (redis_client w')) ≤ 1000)%nat.
Proof.
  intros Hth Hal Hs key old Hlen w'. subst w' old key.
  rewrite (run_lines_cache tid th lines w Hth Hal Hs Hlen).
  split; [done|]. rewrite length_drop. lia.
Qed.

Lemma X12_witness :
  let w := (select_pod ["kavosh"] "kavosh" "p" "s" [] empty_world).2 in
  Redis.entry "logs:kavosh:p"
    (redis_client (run (map (λ l, (0, Py.UpLine l)) ["a"; "b"]) w))
  = drop (length ([] ++ ["a"; "b"]) - 1000) ([] ++ ["a"; "b"]).
Proof.
  intros w.
  refine (proj1 (X12_cache_keeps_last_1000_lines 0 (Thread "s" "p" "kavosh" true)
                   ["a"; "b"] w _ _ _ _)).
  - reflexivity.
  - reflexivity.
  - reflexivity.
  - vm_compute. lia.
Defined.

Lemma run_app s1 s2 w : run (s1 ++ s2) w = run s2 (run s1 w).
Proof. unfold run. apply foldl_app. Qed.

(** The wait loop of the terminal does nothing to the world by itself:
    what changes is what the worker threads do meanwhile. *)
Lemma wait_loop_run sid waits w : ∃ sched, wait_loop sid waits w = run sched w.
Proof.
  revert w. induction waits as [|[sched input] waits IH]; intros w; simpl.
  - by exists [].
  - destruct (streaming sid w); [|by exists []].
    destruct (IH (run sched w)) as (rest & Hrest).
    destruct input as [line|]; [destruct (String.eqb line "q")|].
    + by exists sched.
    + exists (sched ++ rest). by rewrite run_app.
    + exists (sched ++ rest). by rewrite run_app.
Qed.

Lemma only_run sid t sched w : only sid t w → only sid t (run sched w).
Proof.
  revert w. induction sched as [|[tid u] sched IH]; intros w Ho; simpl; [done|].
  by apply IH, only_step.
Qed.

Lemma alive_run_false tid sched w : alive tid w = false → alive tid (run sched w) = false.
Proof.
  revert w. induction sched as [|[t u] sched IH]; intros w Hd; simpl; [done|].
  apply IH. destruct (alive tid (streamer_step t u w)) eqn:E; [|done].
  apply alive_true in E as (th' & Hth' & Hal').
  destruct (streamer_step_lookup _ _ _ _ _ Hth') as (th & Hth & _ & Hsame).
  destruct (Hsame Hal') as [-> _].
  assert (alive tid w = true) by (apply alive_true; eauto). congruence.
Qed.

Lemma length_threads_run sched w : length (threads (run sched w)) = length (threads w).
Proof.
  revert w. induction sched as [|[t u] sched IH]; intros w; simpl; [done|].
  rewrite IH. destruct (streamer_step_threads t u w) as [->|(th & _ & _ & ->)]; [done|].
  apply length_insert.
Qed.

Lemma length_threads_stop sid sched w :
  length (threads (stop_log_streaming sid sched w)) = length (threads w).
Proof.
  destruct (stop_log_streaming_cases sid sched w) as [(tid & _ & _ & ->)|[_ ->]]; [|done].
  change (length (threads (run sched (log (ThreadJoin tid) (set_stop_event sid true w))))
          = length (threads w)).
  by rewrite length_threads_run.
Qed.

(** With the stop signal set and at most the worker [tid] of the session
    running, a stop during whose join that worker gets something from its
    upstream, or which finds it returned, leaves no worker of the session
    running. *)
Lemma stop_log_streaming_only sid tid sched w :
  only sid tid w → stream_thread (state_of sid w) = Some tid →
  (∃ u, (tid, u) ∈ sched) →
  quiet sid (stop_log_streaming sid sched w).
Proof.
  intros Ho Hh Hin.
  destruct (stop_log_streaming_cases sid sched w) as [(t & _ & _ & ->)|[Hno ->]].
  - change (quiet sid (run sched (log (ThreadJoin t) (set_stop_event sid true w)))).
    apply (run_quiet sid tid); [exact Ho| |exact Hin].
    rewrite state_of_log, state_of_set_stop_event. by case_decide.
  - intros t th Hth Hs. destruct (is_alive th) eqn:Ha; [|done].
    assert (t = tid) as -> by (eapply Ho; eauto).
    assert (alive tid w = true) by (apply alive_true; eauto).
    rewrite (Hno tid Hh) in *. done.
Qed.

(** X13.  [stream_pod_logs] does nothing for a namespace outside the
    allow-list.  Otherwise, when it returns, however the wait ended (the
    user typed q, the worker returned, or the wait was interrupted), the
    stop signal of the session is set and no running worker is behind its
    handle; and if no worker of the session was running at the call and
    the upstream delivers something to the new worker during the join
    that follows the wait, no worker of the session is running on
    return. *)
Theorem X13_stream_pod_logs_stops_what_it_started
  (allowed : list string) (pod_name namespace sid : string)
  (j1 : schedule) (waits : list wait) (j2 j3 : schedule) (w : world) :
  (namespace ∉ allowed →
   stream_pod_logs allowed pod_name namespace sid j1 waits j2 j3 w = w)
  ∧ (namespace ∈ allowed →
     let w' := stream_pod_logs allowed pod_name namespace sid j1 waits j2 j3 w in
     stop_event (state_of sid w') = true
     ∧ (∀ tid, stream_thread (state_of sid w') = Some tid → alive tid w' = false)
     ∧ (quiet sid w → (∃ u, (length (threads w), u) ∈ j2) → quiet sid w')).
Proof.
  split.
  - intros Hout. unfold stream_pod_logs. by case_decide.
  - intros Hin. cbv zeta. unfold stream_pod_logs. case_decide as Hd; [done|].
    set (w1 := stop_log_streaming sid j1 w).
    set (w2 := start_log_streaming allowed pod_name namespace sid w1).
    destruct (wait_loop_run sid waits w2) as (sched & ->).
    set (w4 := set_stop_event sid true (run sched w2)).
    set (w5 := stop_log_streaming sid j2 w4).
    split; [|split].
    + rewrite (proj1 (run_signals _ _ _)). apply stop_log_streaming_signal.
    + intros tid Hh. rewrite (proj2 (run_signals _ _ _)) in Hh.
      by apply alive_run_false, stop_log_streaming_handle.
    + intros Hq Hev. apply quiet_run.
      destruct (start_log_streaming_spec allowed pod_name namespace sid w1 Hin)
        as (Hst & _ & Hthr & _). fold w2 in Hst, Hthr.
      assert (Hlen : length (threads w1) = length (threads w))
        by apply length_threads_stop.
      rewrite Hlen in Hst.
      assert (Ho2 : only sid (length (threads w)) w2).
      { intros t th Hth Hs Ha. rewrite Hthr in Hth.
        apply lookup_app_Some in Hth as [Hold|[Hge Hnew]].
        - pose proof (stop_log_streaming_quiet sid j1 w Hq t th Hold Hs). congruence.
        - apply list_lookup_singleton_Some in Hnew as [Hz _]. lia. }
      apply (stop_log_streaming_only sid (length (threads w))); [| |exact Hev].
      * subst w4. intros t th Hth. apply (only_run sid _ sched w2 Ho2 t th Hth).
      * subst w4. rewrite state_of_set_stop_event. case_decide; [|done]. simpl.
        rewrite (proj2 (run_signals _ _ _)). by rewrite Hst.
Qed.

Lemma X13_witness :
  let w' := stream_pod_logs ["kavosh"] "p" "kavosh" "cli-session"
              [] [([(0, Py.UpLine "a")], Some "q")] [(0, Py.UpLine "b")] []
              (_get_or_create_state "cli-session" empty_world) in
  stop_event (state_of "cli-session" w') = true.
Proof.
  intros w'.
  refine (proj1 (proj2 (X13_stream_pod_logs_stops_what_it_started ["kavosh"] "p" "kavosh"
                   "cli-session" [] [([(0, Py.UpLine "a")], Some "q")]
                   [(0, Py.UpLine "b")] []
                   (_get_or_create_state "cli-session" empty_world)) _)).
  left.
Defined.

Lemma dispatch_filter allowed int pods choice ns :
  dispatch allowed int pods choice = Filter ns → ns ∈ allowed.
Proof.
  assert (Has : as_namespace allowed choice = Filter ns → ns ∈ allowed).
  { unfold as_namespace. case_decide; [|done]. by intros [= <-]. }
  unfold dispatch.
  destruct (String.eqb choice "q"); [done|].
  destruct (String.eqb choice "all"); [done|].
  destruct (String.eqb choice EmptyString); [done|].
  destruct (int choice) as [n|]; [|done]. cbv zeta.
  destruct (_ && _)%bool; [|done].
  by destruct (pods !! _).
Qed.

Lemma main_loop_filter allowed int cur turns w :
  (∀ ns, cur = Some ns → ns ∈ allowed) →
  ∀ ns, (main_loop allowed int cur turns w).1 = Some ns → ns ∈ allowed.
Proof.
  revert cur w. induction turns as [|t turns IH]; intros cur w Hcur; simpl; [done|].
  destruct (main_turn allowed int cur t w) as [[cur'|] w1] eqn:E; [|done].
  apply IH. intros ns ->. unfold main_turn in E.
  destruct (list_pods allowed cur (cluster_now t) w) as [pods w0].
  destruct (typed t) as [choice|]; [|done].
  destruct (dispatch allowed int pods choice) eqn:D; try done.
  - injection E as E _. by apply Hcur.
  - injection E as -> _. by apply (dispatch_filter _ _ _ _ _ D).
  - destruct (enter_pressed t); [|done]. injection E as E _. by apply Hcur.
  - destruct (enter_pressed t); [|done]. injection E as E _. by apply Hcur.
Qed.

(** X14.  Whatever is typed at the terminal, and whatever the starting
    namespace, the namespace filter of [main] is at every turn either
    unset or a namespace of the allow-list; so [main] never calls
    [list_pods] with a namespace outside it. *)
Theorem X14_terminal_filter_stays_allowed
  (allowed : list string) (int : string → option Z)
  (initial_namespace : string) (turns : list turn) (w : world) (ns : string) :
  (main allowed int initial_namespace turns w).1 = Some ns → ns ∈ allowed.
Proof.
  unfold main. apply main_loop_filter.
  intros ns'. case_decide; [|done]. by intros [= <-].
Qed.

Lemma X14_witness :
  let turn1 := Turn (Cluster (inr []) (λ _, inr []) (inr [])) (Some "secure") [] [] [] [] true in
  (main ["kavosh"; "secure"] (λ _, None) "default" [turn1] empty_world).1 = Some "secure"
  ∧ "secure" ∈ ["kavosh"; "secure"].
Proof.
  intros turn1.
  assert (E : (main ["kavosh"; "secure"] (λ _, None) "default" [turn1] empty_world).1
              = Some "secure") by (vm_compute; reflexivity).
  split; [exact E|].
  exact (X14_terminal_filter_stays_allowed ["kavosh"; "secure"] (λ _, None)
           "default" [turn1] empty_world "secure" E).
Defined.

Lemma enumerate_lookup start pods i e :
  enumerate start pods !! i = Some e → index e = (start + i)%nat.
Proof.
  revert start i. induction pods as [|p pods IH]; intros start i; simpl; [done|].
  destruct i as [|i]; simpl.
  - intros [= <-]. simpl. lia.
  - intros H. rewrite (IH _ _ H). lia.
Qed.

Lemma list_pods_enumerated allowed namespace k w :
  ∃ pods, (list_pods allowed namespace k w).1 = enumerate 1 pods.
Proof.
  unfold list_pods. destruct namespace as [ns|].
  - destruct (String.eqb ns EmptyString).
    + destruct (list_pod_for_all_namespaces k); simpl; [by exists []|eauto].
    + case_decide; [by exists []|].
      destruct (list_namespaced_pod k ns); simpl; [by exists []|eauto].
  - destruct (list_pod_for_all_namespaces k); simpl; [by exists []|eauto].
Qed.

(** X15.  The pods [list_pods] returns are numbered 1, 2, 3, ... in order,
    and typing the number shown next to a pod makes [main] stream exactly
    that pod. *)
Theorem X15_typed_index_selects_listed_pod
  (allowed : list string) (int : string → option Z) (namespace : option string)
  (k : cluster) (w : world) (i : nat) (e : pod_entry) (choice : string) :
  let pods := (list_pods allowed namespace k w).1 in
  pods !! i = Some e →
  int choice = Some (Z.of_nat (index e)) →
  choice ≠ "q" → choice ≠ "all" → choice ≠ EmptyString →
  index e = S i ∧ dispatch allowed int pods choice = Stream e.
Proof.
  intros pods Hi Hint Hq Hall Hempty.
  assert (Hidx : index e = S i).
  { destruct (list_pods_enumerated allowed namespace k w) as (l & Hl).
    subst pods. rewrite Hl in Hi. by rewrite (enumerate_lookup _ _ _ _ Hi). }
  split; [done|]. unfold dispatch.
  destruct (String.eqb_spec choice "q"); [done|].
  destruct (String.eqb_spec choice "all"); [done|].
  destruct (String.eqb_spec choice EmptyString); [done|].
  rewrite Hint, Hidx. cbv zeta.
  assert (Hlt : (i < length pods)%nat) by (by eapply lookup_lt_Some).
  replace (Z.of_nat (S i) - 1)%Z with (Z.of_nat i) by lia.
  destruct (Z.leb_spec 0 (Z.of_nat i)); [|lia].
  destruct (Z.ltb_spec (Z.of_nat i) (Z.of_nat (length pods))); [|lia].
  simpl. by rewrite Nat2Z.id, Hi.
Qed.

Lemma X15_witness :
  let k := Cluster (inr []) (λ _, inr [Py.PodRef "a" "kavosh"; Py.PodRef "b" "kavosh"])
             (inr []) in
  let int := λ s : string, if String.eqb s "2" then Some 2%Z else None in
  dispatch ["kavosh"] int (list_pods ["kavosh"] (Some "kavosh") k empty_world).1 "2"
  = Stream (PodEntry 2 (Py.PodRef "b" "kavosh")).
Proof.
  intros k int.
  refine (proj2 (X15_typed_index_selects_listed_pod ["kavosh"] int (Some "kavosh") k
                   empty_world 1 (PodEntry 2 (Py.PodRef "b" "kavosh")) "2" _ _ _ _ _));
    [reflexivity|reflexivity|discriminate|discriminate|discriminate].
Defined.

End Extras_App.

(** ** appv2.py and web-log.py: parsing, resumption, and what a worker never does *)

Section Extras_AppV2.
Import AppV2 AppV2View.

Lemma split1_cases s :
  (Py.has_space s = false ∧ Py.split1 s = [s])
  ∨ ∃ token body, s = token +:+ " " +:+ body ∧ Py.has_space token = false
                  ∧ Py.split1 s = [token; body].
Proof.
  induction s as [|c s IH]; simpl; [by left|].
  destruct (Ascii.eqb_spec c " ") as [->|Hc].
  - right. by exists EmptyString, s.
  - destruct IH as [[Hn Hs]|(token & body & -> & Hn & Hs)].
    + left. by rewrite Hs.
    + right. exists (String c token), body. simpl.
      destruct (Ascii.eqb_spec c " "); [done|]. by rewrite Hs.
Qed.

(** X16.  Nothing of a line is lost in parsing: either the line holds no
    space, and it is forwarded whole while the resumption timestamp stays
    as it was; or it is split at its first space, and the new timestamp,
    a space and the forwarded message put together are the line again. *)
Theorem X16_parse_splits_at_first_space (line : string) (last : option string) :
  (Py.has_space line = false ∧ parse line last = (last, line))
  ∨ ∃ token msg, parse line last = (Some token, msg)
                 ∧ line = token +:+ " " +:+ msg ∧ Py.has_space token = false.
Proof.
  unfold parse. destruct (split1_cases line) as [[Hn ->]|(token & body & Hl & Hn & ->)].
  - by left.
  - right. by exists token, body.
Qed.

Lemma streamer_step_line_thread tid th line w :
  threads w !! tid = Some th → th_pc th = InFor → stop_event (vars w) = false →
  let w' := streamer_step tid (Up (Py.UpLine line)) w in
  stop_event (vars w') = false
  ∧ threads w' !! tid
    = Some (Thread (th_pod_name th) (th_namespace th) InFor
              (parse line (last_timestamp th)).1 (local_current_pod th)).
Proof.
  intros Hth Hpc Hs. cbv zeta. unfold streamer_step. rewrite Hth, Hpc, Hs.
  destruct (parse line (last_timestamp th)) as [last msg]. cbv zeta. simpl.
  destruct (1000 <? _)%nat; simpl;
    (split; [done|]; apply list_lookup_insert_eq; by eapply lookup_lt_Some).
Qed.

Lemma run_lines_thread tid th lines w :
  threads w !! tid = Some th → th_pc th = InFor → stop_event (vars w) = false →
  let w' := run (map (λ l, (tid, Up (Py.UpLine l))) lines) w in
  stop_event (vars w') = false
  ∧ threads w' !! tid
    = Some (Thread (th_pod_name th) (th_namespace th) InFor
              (resume_point (last_timestamp th) lines) (local_current_pod th)).
Proof.
  cbv zeta. revert th w. induction lines as [|l lines IH]; intros th w Hth Hpc Hs; simpl.
  - split; [done|]. rewrite Hth. f_equal. destruct th; simpl in *; by subst.
  - destruct (streamer_step_line_thread tid th l w Hth Hpc Hs) as [Hs' Hth'].
    destruct (IH _ _ Hth' eq_refl Hs') as [IHs IHt]. split; [done|].
    rewrite IHt. reflexivity.
Qed.

(** X17.  When the upstream of an appv2.py worker ends and the stop signal
    is clear, the worker follows again from its resumption point: with
    [since_time] the last timestamp token it has parsed and no tail
    replay; with no [since_time] and no tail when that token was empty;
    and with the last 100 lines replayed when no line so far held a
    space. *)
Theorem X17_reconnect_resumes_from_last_timestamp
  (tid : nat) (th : thread) (lines : list string) (w : world) :
  threads w !! tid = Some th → th_pc th = InFor → stop_event (vars w) = false →
  let w' := run (map (λ l, (tid, Up (Py.UpLine l))) lines) w in
  let wf := streamer_step tid (Up Py.UpEnd) w' in
  let request :=
    match resume_point (last_timestamp th) lines with
    | None => Follow (th_namespace th) (th_pod_name th) 100 None
    | Some token =>
        Follow (th_namespace th) (th_pod_name th) 0
          (if String.eqb token EmptyString then None else Some token)
    end in
  trace wf = trace w' ++ [request] ∧ alive tid wf = true
  ∧ log_queue (vars wf) = log_queue (vars w').
Proof.
  intros Hth Hpc Hs. cbv zeta.
  destruct (run_lines_thread tid th lines w Hth Hpc Hs) as [Hs' Hth'].
  set (w' := run _ w) in *.
  unfold streamer_step. rewrite Hth'. cbn [th_pc]. unfold while_test. rewrite Hs'.
  cbn [last_timestamp th_namespace th_pod_name]. cbv zeta.
  split; [|split].
  - simpl. by destruct (resume_point (last_timestamp th) lines).
  - unfold alive. cbn [threads set_thread log].
    rewrite list_lookup_insert_eq by (by eapply lookup_lt_Some). done.
  - done.
Qed.

Lemma X17_witness :
  let w := run [(0, Resume)] (select_pod "kavosh" "p" [] empty_world).2 in
  let w' := run (map (λ l, (0, Up (Py.UpLine l))) ["2024-01-01T00:00:00Z hello"]) w in
  trace (streamer_step 0 (Up Py.UpEnd) w')
  = trace w' ++ [Follow "kavosh" "p" 0 (Some "2024-01-01T00:00:00Z")].
Proof.
  intros w w'.
  refine (proj1 (X17_reconnect_resumes_from_last_timestamp 0
                   (Thread "p" "kavosh" InFor None None)
                   ["2024-01-01T00:00:00Z hello"] w _ _ _)); reflexivity.
Defined.

(** No step of a worker touches the stop signal. *)
Lemma streamer_step_signal_v2 tid i w :
  stop_event (vars (streamer_step tid i w)) = stop_event (vars w).
Proof.
  unfold streamer_step. destruct (threads w !! tid) as [th|]; [|done].
  destruct (th_pc th), i as [|[line|e|]]; try done; unfold while_test;
    repeat match goal with
      | |- context [if ?b then _ else _] => destruct b eqn:?
      | |- context [let '(_, _) := ?p in _] => destruct p
      end; simpl; congruence.
Qed.

(** A step keeps a started worker started while the stop signal is
    clear. *)
Lemma streamer_step_stays_alive tid t i w :
  stop_event (vars w) = false → alive tid w = true →
  alive tid (streamer_step t i w) = true.
Proof.
  intros Hs Hal. unfold streamer_step.
  destruct (threads w !! t) as [th|] eqn:Hth; [|done].
  assert (Hset : ∀ th' w1, threads w1 = threads w →
            match th_pc th' with Created | Returned => False | _ => True end →
            alive tid (set_thread t th' w1) = true).
  { intros th' w1 Hw1 Hpc. unfold alive, set_thread. simpl. rewrite Hw1.
    destruct (decide (t = tid)) as [->|Hne].
    - rewrite list_lookup_insert_eq by (by eapply lookup_lt_Some).
      by destruct (th_pc th').
    - rewrite list_lookup_insert_ne by done. exact Hal. }
  destruct (th_pc th) eqn:Hpc, i as [|[line|e|]]; try done.
  - unfold while_test. rewrite Hs. by apply Hset.
  - rewrite Hs. destruct (parse line (last_timestamp th)) as [last msg]. cbv zeta.
    destruct (1000 <? _)%nat; by apply Hset.
  - cbv zeta. by apply Hset.
  - unfold while_test. rewrite Hs. by apply Hset.
Qed.

(** X18.  An appv2.py worker returns only on the stop signal: while the
    signal stays clear, whatever the upstreams deliver to whatever
    workers (lines, errors, ends), a started worker is still running;
    errors and ends make it retry. *)
Theorem X18_appv2_worker_runs_until_stopped (tid : nat) (sched : schedule) (w : world) :
  stop_event (vars w) = false → alive tid w = true →
  alive tid (run sched w) = true ∧ stop_event (vars (run sched w)) = false.
Proof.
  revert w. induction sched as [|[t i] sched IH]; intros w Hs Hal; simpl; [done|].
  apply IH.
  - by rewrite streamer_step_signal_v2.
  - by apply streamer_step_stays_alive.
Qed.

Lemma X18_witness :
  let w := run [(0, Resume)] (select_pod "kavosh" "p" [] empty_world).2 in
  alive 0 (run [(0, Up (Py.UpApiException "boom")); (0, Resume); (0, Up Py.UpEnd)] w) = true.
Proof.
  intros w.
  refine (proj1 (X18_appv2_worker_runs_until_stopped 0 _ w _ _)); reflexivity.
Defined.

Lemma drain_spec_v2 n w :
  (length (log_queue (vars w)) ≤ n)%nat →
  vars (drain n w)
  = Globals (current_pod (vars w)) [] (stop_event (vars w)) (stream_thread (vars w))
  ∧ redis_client (drain n w) = redis_client w
  ∧ threads (drain n w) = threads w.
Proof.
  revert w. induction n as [|n IH]; intros w Hn; simpl.
  - destruct (vars w) as [cp q se st] eqn:E. simpl in *.
    destruct q; [done|simpl in Hn; lia].
  - destruct (log_queue (vars w)) as [|x q] eqn:E.
    + destruct (vars w); simpl in *; by subst.
    + destruct (IH (get_nowait w)) as (H1 & H2 & H3).
      { unfold get_nowait. rewrite E. simpl in *. lia. }
      rewrite H1, H2, H3. unfold get_nowait. rewrite E. done.
Qed.

(** X19.  An accepted selection in appv2.py starts fresh, whatever the
    queue and the cache held: on return the queue is empty (nothing is
    seeded from the cache), the cache entry of the pod is gone, the stop
    signal is clear, the pod reference names the selected pod, and the
    handle points to a newly started worker that has no resumption
    timestamp yet. *)
Theorem X19_appv2_selection_starts_fresh
  (namespace pod_name : string) (sched : schedule) (w : world) :
  namespace ∈ ALLOWED_NAMESPACES →
  let r := select_pod namespace pod_name sched w in
  r.1 = (200, "OK")
  ∧ redis_client r.2 !! Py.cache_key namespace pod_name = None
  ∧ ∃ tid,
      vars r.2 = Globals (Some (PodRef pod_name namespace)) [] false (Some tid)
      ∧ threads r.2 !! tid = Some (Thread pod_name namespace AtWhile None None).
Proof.
  intros Hin. cbv zeta. unfold select_pod. case_decide as Hd; [done|].
  cbn [fst snd]. set (w1 := clear_queue (stop_log_streaming sched w)).
  unfold start_log_streaming. case_decide as Hd'; [done|]. cbv zeta.
  set (w2 := set_stop_event false (set_current_pod _ w1)).
  destruct (drain_spec_v2 (length (log_queue (vars w2))) w2 (le_n _)) as (H1 & H2 & H3).
  fold (clear_queue w2) in H1, H2, H3. set (w3 := clear_queue w2) in *.
  unfold new_thread. cbn [fst snd].
  set (w4 := set_stream_thread _ _).
  assert (Hth4 : threads w4 = threads w3 ++ [Thread pod_name namespace Created None None])
    by reflexivity.
  assert (Hlook : threads w4 !! length (threads w3)
                  = Some (Thread pod_name namespace Created None None)).
  { rewrite Hth4, lookup_app_r by done. by rewrite Nat.sub_diag. }
  change (length (threads (delete_key (Py.cache_key namespace pod_name) w3)))
    with (length (threads w3)) in *.
  unfold start. rewrite Hlook. split; [done|]. split.
  - simpl. apply lookup_delete_eq.
  - exists (length (threads w3)). split.
    + simpl. rewrite H1. done.
    + unfold log, set_thread. cbn [threads].
      rewrite list_lookup_insert_eq by (rewrite Hth4, length_app; simpl; lia). done.
Qed.

Lemma X19_witness :
  let w := World (Globals None ["stale"] false None) {["logs:kavosh:p" := ["old"]]} [] [] in
  log_queue (vars (select_pod "kavosh" "p" [] w).2) = [].
Proof.
  intros w.
  destruct (X19_appv2_selection_starts_fresh "kavosh" "p" [] w) as (_ & _ & tid & Hv & _).
  - left.
  - rewrite Hv. reflexivity.
Defined.

Lemma weblog_step_keeps_global_pod tid u w :
  WebLog.current_pod (WebLog.vars (WebLog.streamer_step tid u w))
  = WebLog.current_pod (WebLog.vars w).
Proof.
  unfold WebLog.streamer_step. destruct (WebLog.threads w !! tid) as [th|]; [|done].
  destruct (negb (WebLog.is_alive th)); [done|].
  destruct u as [line|e|]; [destruct (WebLog.stop_event (WebLog.vars w))| |]; done.
Qed.

(** X20.  In appv2.py and in web-log.py no worker ever changes the
    module-level [current_pod]: whatever the workers do, it keeps the
    value [start_log_streaming] gave it, also after a worker has appended
    the sentinel and returned. *)
Theorem X20_workers_keep_module_level_pod
  (sched : schedule) (w : world) (sched' : WebLog.schedule) (w' : WebLog.world) :
  current_pod (vars (run sched w)) = current_pod (vars w)
  ∧ WebLog.current_pod (WebLog.vars (WebLog.run sched' w'))
    = WebLog.current_pod (WebLog.vars w').
Proof.
  split.
  - revert w. induction sched as [|[tid i] sched IH]; intros w; simpl; [done|].
    rewrite IH. apply streamer_step_keeps_global_pod.
  - revert w'. induction sched' as [|[tid u] sched' IH]; intros w'; simpl; [done|].
    rewrite IH. apply weblog_step_keeps_global_pod.
Qed.

End Extras_AppV2.

(** ** app.py: from the selection to the end of the feed *)

Section Extras_EndToEnd.
Import App AppOps.

Lemma observe_alone sid passes w :
  Forall (λ p : pass, p.1 = []) passes →
  current_pod (state_of sid (observe sid passes w).2) = current_pod (state_of sid w)
  ∧ redis_client (observe sid passes w).2 = redis_client w.
Proof.
  revert w. induction passes as [|[sched [ty ta]] passes IH]; intros w Hp; [done|].
  apply Forall_cons in Hp as [Hs Hp]. simpl in Hs. subst sched. simpl.
  assert (Hg : current_pod (state_of sid (get_nowait sid w)) = current_pod (state_of sid w)
               ∧ redis_client (get_nowait sid w) = redis_client w).
  { split.
    - rewrite state_of_get_nowait. by case_decide.
    - unfold get_nowait. by destruct (log_queue (state_of sid w)). }
  unfold poll. destruct (stop_event (state_of sid w)); [done|].
  destruct (log_queue (state_of sid w)) as [|line q] eqn:E.
  - specialize (IH w Hp). by destruct (observe sid passes w).
  - destruct (String.eqb line Py.END); [exact Hg|].
    specialize (IH (get_nowait sid w) Hp).
    destruct (observe sid passes (get_nowait sid w)). simpl in *.
    destruct IH as [-> ->]. exact Hg.
Qed.

(** X21.  From the selection to the end of the feed, with nothing else
    going on: a pod of an allowed namespace is selected, its worker
    receives lines (none of which reads [__END__]) and then the end of
    its upstream, and a feed of the session gets enough passes.  The feed
    delivers exactly these lines, in order, then the "stream ended"
    frame; afterwards the queue is empty and the pod reference of the
    session is cleared; and when the lines are at most 1000 the cache
    entry of the pod holds exactly them. *)
Theorem X21_selection_to_end_of_feed
  (allowed : list string) (namespace pod_name sid : string) (sched : schedule)
  (lines : list string) (t0 : Q) (passes : list pass) (w : world) :
  namespace ∈ allowed →
  Forall (λ x, x ≠ Py.END) lines →
  (length lines < length passes)%nat →
  Forall (λ p : pass, p.1 = []) passes →
  let w1 := (select_pod allowed namespace pod_name sid sched w).2 in
  ∃ tid,
    stream_thread (state_of sid w1) = Some tid
    ∧ let w2 := run (map (λ l, (tid, Py.UpLine l)) lines ++ [(tid, Py.UpEnd)]) w1 in
      let r := logs sid t0 passes w2 in
      FeedView.log_lines r.1 = lines
      ∧ (∃ body t, r.1 = body ++ [Feed.Frame Feed.StreamEnded t])
      ∧ log_queue (state_of sid r.2) = []
      ∧ current_pod (state_of sid r.2) = None
      ∧ ((length lines ≤ 1000)%nat →
         Redis.entry (Py.cache_key namespace pod_name) (redis_client r.2) = lines).
Proof.
  intros Hin Hne Hlen Hidle w1.
  destruct (select_pod_accepted allowed namespace pod_name sid sched w Hin)
    as (_ & Hst & Hr & Hthr & _). fold w1 in Hst, Hr, Hthr.
  set (w0 := stop_log_streaming sid sched (_get_or_create_state sid w)) in *.
  set (tid := length (threads w0)) in *.
  set (th := Thread sid pod_name namespace true).
  assert (Hth : threads w1 !! tid = Some th).
  { rewrite Hthr, lookup_app_r by done. unfold tid. by rewrite Nat.sub_diag. }
  assert (Hs1 : stop_event (state_of (th_session th) w1) = false) by (simpl; by rewrite Hst).
  exists tid. split; [by rewrite Hst|]. cbv zeta. rewrite run_app.
  set (wl := run (map (λ l, (tid, Py.UpLine l)) lines) w1).
  destruct (run_lines tid th lines w1 Hth eq_refl Hs1) as [Hstl Hthl].
  fold wl in Hstl, Hthl. simpl in Hstl. rewrite Hst in Hstl. simpl in Hstl.
  assert (Hcache : Redis.entry (Py.cache_key namespace pod_name) (redis_client wl)
                   = drop (length lines - 1000) lines).
  { pose proof (run_lines_cache tid th lines w1 Hth eq_refl Hs1) as Hc.
    simpl in Hc. rewrite Hr, entry_del_eq in Hc. simpl in Hc. apply Hc. lia. }
  assert (Hthl' : threads wl !! tid = Some th) by (by rewrite Hthl).
  change (run [(tid, Py.UpEnd)] wl) with (streamer_step tid Py.UpEnd wl).
  rewrite (streamer_step_finally tid th Py.UpEnd wl Hthl' eq_refl) by (by left).
  destruct (streamer_finally_spec tid th wl Hthl') as (Hstf & _ & Hrf & _).
  change (th_session th) with sid in *.
  set (wf := streamer_finally tid sid wl) in *.
  rewrite Hstl in Hstf. simpl in Hstf.
  destruct (logs_drains sid t0 lines [] passes wf) as (H1 & H2 & H3).
  - by rewrite Hstf.
  - by rewrite Hstf.
  - done.
  - done.
  - eapply Forall_impl; [exact Hidle|]. intros p Hp tid' u th' Hin'.
    rewrite Hp in Hin'. by apply elem_of_nil in Hin'.
  - split; [done|]. split; [done|]. split; [done|].
    unfold logs in *.
    destruct (observe_alone sid passes (_get_or_create_state sid wf) Hidle) as [Hcp Hrd].
    destruct (observe sid passes (_get_or_create_state sid wf)) as [obs w']. simpl in *.
    split.
    + rewrite Hcp, state_of_get_or_create. by rewrite Hstf.
    + intros Hle. rewrite Hrd.
      replace (redis_client (_get_or_create_state sid wf)) with (redis_client wf)
        by (unfold _get_or_create_state; by destruct (sessions wf !! sid)).
      rewrite Hrf, Hcache. replace (length lines - 1000)%nat with 0%nat by lia. done.
Qed.

Lemma X21_witness :
  let passes : list pass := [([], (1%Q, 1%Q)); ([], (2%Q, 2%Q))] in
  let w1 := (select_pod ["ns1"] "ns1" "p1" "s" [] empty_world).2 in
  let w2 := run (map (λ l, (0, Py.UpLine l)) ["2024-01-01T00:00:00Z hello"]
                 ++ [(0, Py.UpEnd)]) w1 in
  FeedView.log_lines (logs "s" 0 passes w2).1 = ["2024-01-01T00:00:00Z hello"]
  ∧ Redis.entry "logs:ns1:p1" (redis_client (logs "s" 0 passes w2).2)
    = ["2024-01-01T00:00:00Z hello"].
Proof.
  intros passes w1 w2.
  destruct (X21_selection_to_end_of_feed ["ns1"] "ns1" "p1" "s" []
              ["2024-01-01T00:00:00Z hello"] 0 passes empty_world)
    as (tid & Htid & Hl & _ & _ & _ & Hc).
  - left.
  - repeat constructor. discriminate.
  - simpl. lia.
  - repeat constructor.
  - assert (Ht : tid = 0%nat) by (vm_compute in Htid; congruence). subst tid.
    split; [exact Hl|]. apply Hc. simpl. lia.
Defined.

End Extras_EndToEnd.
